(** * scripts/bench/summarize.py: benchmark summary table

    A shallow embedding of the script and the properties its specification
    states about it.

    Conventions of the embedding:
    - a Python [str] is a Rocq [string], read as a sequence of code points
      below 256; comparison, [partition], [in] and [int] all work code
      point by code point;
    - a Python [float] is a primitive binary64 [float], so that [*] and [/]
      round as they do in the interpreter;
    - a Python [int] is a [Z];
    - an exception is a value of [exception], and code that may raise
      returns a [result];
    - a [dict] is a [gmap]; the summary table is only ever read through
      [sorted], so its iteration order is not part of the model. *)

From Stdlib Require Import ZArith String Ascii List.
From Stdlib Require Import PrimFloat SpecFloat FloatOps.
From Stdlib Require Import DecimalString DecimalPos.
From stdpp Require Import gmap strings list fin_maps sorting.

#[local] Set Warnings "-register-all".
#[local] Arguments String.append : simpl nomatch.

Local Open Scope Z_scope.
Local Open Scope string_scope.

(** ** Exceptions and results *)

Inductive exception : Type :=
  | ValueError (msg : string)
  | OverflowError (msg : string)
  | ZeroDivisionError (msg : string)
  | KeyError (msg : string)
  | OSError (msg : string).

Inductive result (A : Type) : Type :=
  | Ok (a : A)
  | Raise (e : exception).

Arguments Ok {A} a.
Arguments Raise {A} e.

#[global] Instance result_ret : MRet result := fun A a => Ok a.
#[global] Instance result_bind : MBind result := fun A B f m =>
  match m with
  | Ok a => f a
  | Raise e => Raise e
  end.
#[global] Instance result_fmap : FMap result := fun A B f m =>
  match m with
  | Ok a => Ok (f a)
  | Raise e => Raise e
  end.

Definition is_ok {A} (m : result A) : bool :=
  match m with Ok _ => true | Raise _ => false end.

(** ** Strings *)

(** [s.partition(sep)] for a separator of one character: the text before
    the first [sep], the separator if there is one, the text after it. *)
Fixpoint partition (sep : ascii) (s : string) : string * string * string :=
  match s with
  | EmptyString => ("", "", "")
  | String c rest =>
      if Ascii.eqb c sep then ("", String sep "", rest)
      else let '(before, mid, after) := partition sep rest in
           (String c before, mid, after)
  end.

(** [needle in hay] on strings. *)
Fixpoint contains (needle hay : string) : bool :=
  String.prefix needle hay ||
  match hay with
  | EmptyString => false
  | String _ rest => contains needle rest
  end.

(** Truth value of a string: [not s] holds of the empty string only. *)
Definition str_truthy (s : string) : bool :=
  match s with EmptyString => false | _ => true end.

(** ** [to_ns] *)

Definition to_ns (value : float) (unit : string) : result float :=
  if String.eqb unit "ns" then Ok value
  else if String.eqb unit "us" then Ok (value * 1000)%float
  else if String.eqb unit "ms" then Ok (value * 1000000)%float
  else if String.eqb unit "s" then Ok (value * 1000000000)%float
  else Raise (ValueError ("Unsupported time unit: " ++ unit)).

(** ** [int] on strings

    [int(s)] in base 10, as the interpreter reads it: optional white space,
    an optional sign, decimal digits that may be separated by single
    underscores, optional white space, and nothing else. *)

(** White space for [int]: tab, line feed, vertical tab, form feed,
    carriage return and space, and, beyond ASCII, the next-line and
    no-break-space characters, which the interpreter turns into spaces
    before it scans. *)
Definition py_isspace (c : ascii) : bool :=
  let n := N_of_ascii c in
  ((9 <=? n) && (n <=? 13) || (n =? 32) || (n =? 133) || (n =? 160))%N.

Definition is_digit (c : ascii) : bool :=
  let n := N_of_ascii c in ((48 <=? n) && (n <=? 57))%N.

Definition digit_value (c : ascii) : Z := Z.of_N (N_of_ascii c) - 48.

Fixpoint skip_spaces (s : string) : string :=
  match s with
  | String c rest => if py_isspace c then skip_spaces rest else s
  | EmptyString => s
  end.

(** The digit scan: [prev] is the character read last, [acc] the value and
    [digits] the number of digits read so far.  Two underscores in a row and
    an underscore at the end of the run are rejected; otherwise the scan
    stops at the first character that is neither a digit nor an underscore
    and returns what is left. *)
Fixpoint scan_digits (str : string) (prev : ascii) (acc : Z) (digits : nat)
  : option (Z * nat * string) :=
  match str with
  | String c rest =>
      if is_digit c then
        scan_digits rest c (10 * acc + digit_value c) (S digits)
      else if Ascii.eqb c "_" then
        if Ascii.eqb prev "_" then None
        else scan_digits rest c acc digits
      else if Ascii.eqb prev "_" then None
      else Some (acc, digits, str)
  | EmptyString =>
      if Ascii.eqb prev "_" then None else Some (acc, digits, str)
  end.

Definition split_sign (s : string) : Z * string :=
  match s with
  | String c rest =>
      if Ascii.eqb c "+" then (1, rest)
      else if Ascii.eqb c "-" then (-1, rest)
      else (1, s)
  | EmptyString => (1, s)
  end.

Definition starts_with (c : ascii) (s : string) : bool :=
  match s with
  | String d _ => Ascii.eqb d c
  | EmptyString => false
  end.

(** ** Numbers

    A JSON number is decoded to an [int] when it has neither a fraction nor
    an exponent and to a [float] otherwise. *)

Inductive number : Type :=
  | NInt (n : Z)
  | NFloat (f : float).

Definition is_infinity (f : float) : bool :=
  match Prim2SF f with S754_infinity _ => true | _ => false end.

(** [float(x)]: a float is returned as it is; an int is rounded to the
    nearest float, ties to even, and is refused when it rounds beyond the
    largest one. *)
Definition py_float (x : number) : result float :=
  match x with
  | NFloat f => Ok f
  | NInt n =>
      let f := SF2Prim (binary_normalize prec emax n 0 false) in
      if is_infinity f
      then Raise (OverflowError "int too large to convert to float")
      else Ok f
  end.

(** [x / y] on floats. *)
Definition py_truediv (x y : float) : result float :=
  if (y =? 0)%float then Raise (ZeroDivisionError "float division by zero")
  else Ok (x / y)%float.

(** ** Text of numbers *)

(** [str(n)] for an int. *)
Definition int_str (n : Z) : string := NilZero.string_of_int (Z.to_int n).

(** [compare_scaled a p b q] compares [a * 10^p] with [b * 2^q], for
    exponents of either sign. *)
Definition compare_scaled (a p b q : Z) : comparison :=
  Z.compare (a * 10 ^ Z.max p 0 * 2 ^ Z.max (- q) 0)
            (b * 2 ^ Z.max q 0 * 10 ^ Z.max (- p) 0).

(** [floor (m * 2^e / 10^p)]. *)
Definition floor_scaled (m e p : Z) : Z :=
  (m * 2 ^ Z.max e 0 * 10 ^ Z.max (- p) 0)
  / (2 ^ Z.max (- e) 0 * 10 ^ Z.max p 0).

(** The least [k] from [k0] on, within [fuel] steps, with
    [m * 2^e < 10^k]. *)
Fixpoint decimal_point (fuel : nat) (m e k : Z) : Z :=
  match fuel with
  | O => k
  | S fuel' =>
      match compare_scaled 1 k m e with
      | Gt => k
      | _ => decimal_point fuel' m e (k + 1)
      end
  end.

(** Whether [d * 10^p], read back as a float with ties to even, gives
    [m * 2^e]: it must lie between the midpoints to the two neighbouring
    floats, which belong to [m * 2^e] when [m] is even.  The lower
    neighbour is half as far when [m] is a power of two above the
    subnormal range. *)
Definition reads_back (m e d p : Z) : bool :=
  let narrow := (m =? 2 ^ 52)%Z && (-1074 <? e)%Z in
  let lo := if narrow then 4 * m - 1 else 4 * m - 2 in
  let hi := 4 * m + 2 in
  match compare_scaled d p lo (e - 2), compare_scaled d p hi (e - 2) with
  | Gt, Lt => true
  | Eq, Lt | Gt, Eq => Z.even m
  | _, _ => false
  end.

(** The decimal with [n] digits nearest to [m * 2^e] that reads back as it,
    if there is one, as its digits [d] and exponent [p]. *)
Definition nearest_decimal (m e decpt : Z) (n : nat) : option (Z * Z) :=
  let p := decpt - Z.of_nat n in
  let below := floor_scaled m e p in
  let above := below + 1 in
  match reads_back m e below p, reads_back m e above p with
  | true, false => Some (below, p)
  | false, true => Some (above, p)
  | false, false => None
  | true, true =>
      match compare_scaled (2 * below + 1) p (2 * m) e with
      | Gt => Some (below, p)
      | Lt => Some (above, p)
      | Eq => Some (if Z.even below then below else above, p)
      end
  end.

(** The shortest decimal that reads back as [m * 2^e], trying [n], [n + 1],
    ... digits; seventeen always do. *)
Fixpoint shortest_decimal (fuel : nat) (m e decpt : Z) (n : nat) : Z * Z :=
  match fuel with
  | O => (floor_scaled m e (decpt - Z.of_nat n), decpt - Z.of_nat n)
  | S fuel' =>
      match nearest_decimal m e decpt n with
      | Some r => r
      | None => shortest_decimal fuel' m e decpt (S n)
      end
  end.

Fixpoint zeros (n : nat) : string :=
  match n with O => "" | S n' => String "0" (zeros n') end.

(** A digit string without the zeros at its end. *)
Fixpoint strip_zeros (s : string) : string :=
  match s with
  | EmptyString => ""
  | String c rest =>
      match strip_zeros rest with
      | EmptyString => if Ascii.eqb c "0" then "" else String c ""
      | t => String c t
      end
  end.

Fixpoint take (n : nat) (s : string) : string :=
  match n, s with
  | S n', String c rest => String c (take n' rest)
  | _, _ => ""
  end.

Fixpoint drop (n : nat) (s : string) : string :=
  match n, s with
  | S n', String _ rest => drop n' rest
  | _, _ => s
  end.

(** The layout of [repr]: [digits] are the significant digits and the
    value is [0.digits * 10^decpt].  Exponent notation is used when
    [decpt] is below -3 or above 16; a value without a fraction gets
    [.0] outside exponent notation. *)
Definition format_repr (digits : string) (decpt : Z) : string :=
  let len := Z.of_nat (String.length digits) in
  if (decpt <=? -4)%Z || (16 <? decpt)%Z then
    let mantissa :=
      match digits with
      | String c EmptyString => digits
      | String c rest => String c ("." ++ rest)
      | EmptyString => ""
      end in
    let ex := decpt - 1 in
    let ex_digits := int_str (Z.abs ex) in
    mantissa ++ "e" ++ (if (ex <? 0)%Z then "-" else "+")
    ++ (if (Z.abs ex <? 10)%Z then "0" else "") ++ ex_digits
  else if (decpt <=? 0)%Z then "0." ++ zeros (Z.to_nat (- decpt)) ++ digits
  else if (len <=? decpt)%Z then digits ++ zeros (Z.to_nat (decpt - len)) ++ ".0"
  else take (Z.to_nat decpt) digits ++ "." ++ drop (Z.to_nat decpt) digits.

(** [repr(f)], which is also [str(f)]: the shortest decimal that reads
    back as [f]. *)
Definition float_repr (f : float) : string :=
  match Prim2SF f with
  | S754_nan => "nan"
  | S754_infinity s => if s then "-inf" else "inf"
  | S754_zero s => if s then "-0.0" else "0.0"
  | S754_finite s m e =>
      let m := Z.pos m in
      let estimate := (Z.log2 m + e) * 30103 / 100000 - 1 in
      let decpt := decimal_point 4 m e estimate in
      let '(d, p) := shortest_decimal 17 m e decpt 1 in
      let all_digits := int_str d in
      (if s then "-" else "")
      ++ format_repr (strip_zeros all_digits)
                     (p + Z.of_nat (String.length all_digits))
  end.

(** ** The CSV writer

    [csv.writer] with its default dialect: fields separated by commas,
    records ended by carriage return and line feed, and a field quoted
    only when it holds a comma, a quote or a line break, its quotes
    doubled. *)

Inductive field : Type :=
  | FStr (s : string)
  | FInt (n : Z)
  | FFloat (f : float).

Definition field_str (f : field) : string :=
  match f with
  | FStr s => s
  | FInt n => int_str n
  | FFloat x => float_repr x
  end.

Definition quote_char : ascii := "034".
Definition crlf : string := String "013" (String "010" "").

Definition is_special (c : ascii) : bool :=
  Ascii.eqb c "," || Ascii.eqb c quote_char
  || Ascii.eqb c "013" || Ascii.eqb c "010".

Fixpoint needs_quotes (s : string) : bool :=
  match s with
  | EmptyString => false
  | String c rest => is_special c || needs_quotes rest
  end.

Fixpoint double_quotes (s : string) : string :=
  match s with
  | EmptyString => ""
  | String c rest =>
      if Ascii.eqb c quote_char
      then String c (String c (double_quotes rest))
      else String c (double_quotes rest)
  end.

Definition quoted (s : string) : string :=
  String quote_char (double_quotes s ++ String quote_char "").

Definition csv_field (f : field) : string :=
  let s := field_str f in
  if needs_quotes s then quoted s else s.

Fixpoint join (sep : string) (parts : list string) : string :=
  match parts with
  | [] => ""
  | [part] => part
  | part :: rest => part ++ sep ++ join sep rest
  end.

(** [writer.writerow(fields)]: the text added to the file.  A record made
    of one empty field is written as a pair of quotes. *)
Definition csv_writerow (fields : list field) : string :=
  let record := join "," (map csv_field fields) in
  match fields, record with
  | _ :: _, EmptyString => quoted "" ++ crlf
  | _, _ => record ++ crlf
  end.

Definition csv_text (rows : list (list field)) : string :=
  String.concat "" (map csv_writerow rows).

(** ** The order on keys

    [sorted] compares the keys, pairs of a string and an int, with [<]:
    the strings first, code point by code point, then the ints. *)

Abbreviation key := (string * Z)%type.

Definition key_ltb (k1 k2 : key) : bool :=
  match String.compare k1.1 k2.1 with
  | Lt => true
  | Eq => (k1.2 <? k2.2)%Z
  | Gt => false
  end.

Definition key_lt (k1 k2 : key) : Prop := key_ltb k1 k2 = true.

(** [k1] stays before [k2] unless [k2 < k1]. *)
Definition key_le (k1 k2 : key) : Prop := key_ltb k2 k1 = false.

#[global] Instance key_le_dec : RelDecision key_le.
Proof. intros k1 k2. unfold key_le. apply _. Defined.

(** ** The summary table and its emission *)

Abbreviation table := (gmap key (gmap string float)).

(** [summary.setdefault(key, {})[engine] = ns_per_op] *)
Definition set_engine (summary : table) (k : key) (engine : string)
    (ns_per_op : float) : table :=
  <[k := <[engine := ns_per_op]> (default ∅ (summary !! k))]> summary.

(** [sorted(summary.keys())] *)
Definition sorted_keys (summary : table) : list key :=
  merge_sort key_le (map_to_list summary).*1.

Definition header : list field :=
  [FStr "case"; FStr "rows"; FStr "entropy_ns_per_op";
   FStr "sqlite_ns_per_op"; FStr "ratio"].

(** [row.get(engine, "")] *)
Definition row_get (row : gmap string float) (engine : string) : field :=
  match row !! engine with
  | Some ns => FFloat ns
  | None => FStr ""
  end.

(** The ratio field: the quotient when both values are floats and the
    second is not zero, the empty string otherwise. *)
Definition ratio_field (entropy_ns sqlite_ns : field) : result field :=
  match entropy_ns, sqlite_ns with
  | FFloat e, FFloat s =>
      if negb (s =? 0)%float then FFloat <$> py_truediv e s
      else Ok (FStr "")
  | _, _ => Ok (FStr "")
  end.

(** The body of the emission loop: the fields of the row for one key. *)
Definition summary_row (summary : table) (k : key) : result (list field) :=
  let '(case, rows) := k in
  match summary !! (case, rows) with
  | None => Raise (KeyError (csv_writerow [FStr case; FInt rows]))
  | Some row =>
      let entropy_ns := row_get row "entropy" in
      let sqlite_ns := row_get row "sqlite" in
      ratio ← ratio_field entropy_ns sqlite_ns;
      Ok [FStr case; FInt rows; entropy_ns; sqlite_ns; ratio]
  end.

(** The emission loop: the rows written, and the exception that stopped
    the loop if one did. *)
Fixpoint write_rows (summary : table) (keys : list key)
  : list (list field) * option exception :=
  match keys with
  | [] => ([], None)
  | k :: rest =>
      match summary_row summary k with
      | Raise e => ([], Some e)
      | Ok fields =>
          let '(rows, stop) := write_rows summary rest in
          (fields :: rows, stop)
      end
  end.

Definition emit (summary : table) : list (list field) * option exception :=
  let '(rows, stop) := write_rows summary (sorted_keys summary) in
  (header :: rows, stop).

(** ** The input *)

Inductive json : Type :=
  | JNull
  | JBool (b : bool)
  | JNum (x : number)
  | JStr (s : string)
  | JArray (items : list json)
  | JObject (members : list (string * json)).

(** The truth value of a decoded JSON value. *)
Definition truthy (v : json) : bool :=
  match v with
  | JNull => false
  | JBool b => b
  | JNum (NInt n) => negb (n =? 0)%Z
  | JNum (NFloat f) => negb (f =? 0)%float
  | JStr s => str_truthy s
  | JArray items => match items with [] => false | _ => true end
  | JObject members => match members with [] => false | _ => true end
  end.

(** [v == s] for a string [s]. *)
Definition equals_str (v : json) (s : string) : bool :=
  match v with
  | JStr t => String.eqb t s
  | _ => false
  end.

(** One record of the [benchmarks] array.  Each field is [None] when the
    record has no such member.  The two members that mark an aggregate are
    only tested for truth and equality, so they hold any JSON value; the
    name and the unit are strings and the time is a number, as the
    signatures of [parse_name] and [to_ns] and the call of [float] ask. *)
Record entry : Type := Entry {
  aggregate_name : option json;
  run_type : option json;
  name : option string;
  real_time : option number;
  time_unit : option string
}.

(** The decoded input file: [benchmarks] is [None] when the document has
    no such member. *)
Record document : Type := Document {
  benchmarks : option (list entry)
}.

(** [entry.get("aggregate_name") or entry.get("run_type") == "aggregate"] *)
Definition is_aggregate (e : entry) : bool :=
  truthy (default JNull (aggregate_name e))
  || equals_str (default JNull (run_type e)) "aggregate".

Section Interpreter.

(** Two settings of the interpreter the script does not choose itself:
    the limit on the number of digits [int] accepts
    ([sys.get_int_max_str_digits()]; 0 switches it off), and the text of
    the [ValueError] that [int] raises for a given argument. *)
Variable max_str_digits : nat.
Variable int_error_message : string -> string.

(** The interpreter looks at the limit only for more than 640 digits. *)
Definition over_digit_limit (digits : nat) : bool :=
  Nat.ltb 640 digits
  && negb (Nat.eqb max_str_digits 0) && Nat.ltb max_str_digits digits.

Definition py_int (s : string) : option Z :=
  let '(sign, str) := split_sign (skip_spaces s) in
  if starts_with "_" str then None
  else
    match scan_digits str "000" 0 0 with
    | None => None
    | Some (value, digits, rest) =>
        if Nat.eqb digits 0 then None
        else if over_digit_limit digits then None
        else match skip_spaces rest with
             | EmptyString => Some (sign * value)
             | _ => None
             end
    end.

(** ** [parse_name] *)

Definition parse_name (name : string) : result (string * Z * string) :=
  let '(base, _, arg) := partition "/" name in
  rows ← (if str_truthy arg then
            match py_int arg with
            | Some n => Ok n
            | None => Raise (ValueError (int_error_message arg))
            end
          else Ok 0);
  let engine :=
    if contains "Entropy" base then "entropy"
    else if contains "Sqlite" base then "sqlite"
    else "other" in
  let case :=
    if contains "InsertBatch" base then "insert_batch"
    else if contains "PointSelect" base then "point_select"
    else base in
  Ok (case, rows, engine).

(** ** The aggregation loop *)

(** The body of the loop over the entries. *)
Definition step (summary : table) (e : entry) : result table :=
  if is_aggregate e then Ok summary
  else
    let name := default "" (name e) in
    if negb (str_truthy name) then Ok summary
    else
      '(case, rows, engine) ← parse_name name;
      if String.eqb engine "other" then Ok summary
      else
        real_time ← py_float (default (NFloat 0) (real_time e));
        let unit := default "ns" (time_unit e) in
        ns_per_op ← to_ns real_time unit;
        Ok (set_engine summary (case, rows) engine ns_per_op).

Fixpoint aggregate_from (summary : table) (entries : list entry)
  : result table :=
  match entries with
  | [] => Ok summary
  | e :: rest => summary' ← step summary e; aggregate_from summary' rest
  end.

Definition aggregate (entries : list entry) : result table :=
  aggregate_from ∅ entries.

(** ** [main] *)

(** What a run leaves behind: the lines printed, the file written (its
    path and text) if the output file was opened, and the exit status or
    the exception that ended the run. *)
Record outcome : Type := Outcome {
  stdout : list string;
  written : option (string * string);
  exit : result Z
}.

Definition usage : string :=
  "Usage: summarize.py <benchmark.json> <output.csv>".

(** [load path] stands for opening [path] and decoding it; opening and
    writing the output file are taken to succeed. *)
Definition main (argv : list string) (load : string -> result document)
  : outcome :=
  match argv with
  | [_; input_path; output_path] =>
      match load input_path with
      | Raise e => Outcome [] None (Raise e)
      | Ok data =>
          match aggregate (default [] (benchmarks data)) with
          | Raise e => Outcome [] None (Raise e)
          | Ok summary =>
              let '(rows, stop) := emit summary in
              Outcome [] (Some (output_path, csv_text rows))
                      (match stop with None => Ok 0 | Some e => Raise e end)
          end
      end
  | _ => Outcome [usage] None (Ok 1)
  end.

(** ** Notions used in the statements *)

(** [converts e k engine x]: the loop body does not skip [e], reads the
    key [k] and [engine] off its name, and gets the float [x] for its
    time. *)
Definition converts (e : entry) (k : key) (engine : string) (x : float)
  : Prop :=
  is_aggregate e = false /\
  exists n,
    name e = Some n /\ n <> "" /\
    parse_name n = Ok (k.1, k.2, engine) /\ engine <> "other" /\
    py_float (default (NFloat 0) (real_time e)) = Ok x.

(** [contributes e k engine ns]: moreover the time comes to [ns]
    nanoseconds, which the body stores for [engine] in the row of [k]. *)
Definition contributes (e : entry) (k : key) (engine : string) (ns : float)
  : Prop :=
  exists x,
    converts e k engine x /\ to_ns x (default "ns" (time_unit e)) = Ok ns.

(** What the ratio field of a row has to be. *)
Definition guarded_ratio (row : gmap string float) (ratio : field) : Prop :=
  match row !! "entropy", row !! "sqlite" with
  | Some e, Some s =>
      if (s =? 0)%float then ratio = FStr ""
      else ratio = FFloat (e / s)%float
  | _, _ => ratio = FStr ""
  end.

(** The integer literals of base 10: white space, an optional sign, a
    run of digits in which single underscores may stand between two
    digits, white space. *)

Fixpoint all_spaces (s : string) : Prop :=
  match s with
  | EmptyString => True
  | String c rest => py_isspace c = true /\ all_spaces rest
  end.

Inductive digit_run : string -> Prop :=
  | digit_run_one c :
      is_digit c = true -> digit_run (String c "")
  | digit_run_digit c s :
      is_digit c = true -> digit_run s -> digit_run (String c s)
  | digit_run_sep c s :
      is_digit c = true -> digit_run s -> digit_run (String c (String "_" s)).

Definition int_literal (s : string) : Prop :=
  exists ws1 sign body ws2,
    s = ws1 ++ sign ++ body ++ ws2 /\
    all_spaces ws1 /\ (sign = "" \/ sign = "+" \/ sign = "-") /\
    digit_run body /\ all_spaces ws2.

Fixpoint count_digits (s : string) : nat :=
  match s with
  | EmptyString => 0
  | String c rest => (if is_digit c then 1 else 0) + count_digits rest
  end.

(** What the digit scan has read when the character before was [prev]. *)
Fixpoint tail_run (prev : ascii) (body : string) : Prop :=
  match body with
  | EmptyString => prev <> "_"%char
  | String c rest =>
      (is_digit c = true /\ tail_run c rest) \/
      (c = "_"%char /\ prev <> "_"%char /\ tail_run c rest)
  end.

(** Where the digit scan stops: at the end, or before a character that is
    neither a digit nor an underscore. *)
Definition scan_stop (rest : string) : Prop :=
  match rest with
  | EmptyString => True
  | String c _ => is_digit c = false /\ c <> "_"%char
  end.

(** The value the table holds for an engine at a key. *)
Definition cell (summary : table) (k : key) (engine : string)
  : option float :=
  row ← summary !! k; row !! engine.

(** The key a written row starts with. *)
Definition row_key (fields : list field) : option key :=
  match fields with
  | FStr case :: FInt rows :: _ => Some (case, rows)
  | _ => None
  end.

(** The text of a file made of the given lines. *)
Definition lines_text (lines : list string) : string :=
  String.concat "" (map (fun l => l ++ crlf) lines).

(** The input of a run whose [benchmarks] array is [entries]. *)
Definition loads (entries : list entry) : string -> result document :=
  fun _ => Ok (Document (Some entries)).

(** A record with a name, a time and a unit, and no other member. *)
Definition timing (n : string) (t : number) (u : string) : entry :=
  Entry None None (Some n) (Some t) (Some u).

(** The input of the end-to-end example of the specification. *)
Definition example_entries : list entry :=
  [timing "BM_EntropyInsertBatch/10" (NInt 100) "ns";
   timing "BM_SqliteInsertBatch/10" (NInt 50) "us"].

Definition header_line : string :=
  "case,rows,entropy_ns_per_op,sqlite_ns_per_op,ratio".

(** The settings of a stock interpreter, for the examples. *)
Definition stock_max_str_digits : nat := 4300.
Definition stock_int_error (s : string) : string :=
  "invalid literal for int() with base 10: '" ++ s ++ "'".

(** [skipped e]: the loop body passes over [e]: it is marked as an
    aggregate, or has no name or an empty one, or its name parses to the
    engine other. *)
Definition skipped (e : entry) : Prop :=
  is_aggregate e = true \/
  default "" (name e) = "" \/
  exists case rows, parse_name (default "" (name e)) = Ok (case, rows, "other").

(** [accepted e]: the loop body raises no exception on [e]. *)
Definition accepted (e : entry) : Prop := is_ok (step ∅ e) = true.

(** No two entries of the list contribute to the same key and engine. *)
Inductive distinct_cells : list entry -> Prop :=
  | distinct_cells_nil : distinct_cells []
  | distinct_cells_cons e l :
      (forall e' k engine ns ns',
         e' ∈ l -> contributes e k engine ns ->
         ~ contributes e' k engine ns') ->
      distinct_cells l ->
      distinct_cells (e :: l).

(** [e] with the members it lacks set to what the loop body takes for
    them. *)
Definition with_defaults (e : entry) : entry :=
  Entry (aggregate_name e) (run_type e) (name e)
        (Some (default (NFloat 0) (real_time e)))
        (Some (default "ns" (time_unit e))).

(** ** The loop body, case by case *)

Lemma str_truthy_false (s : string) : str_truthy s = false <-> s = "".
Proof. destruct s; simpl; split; congruence. Qed.

Lemma step_aggregate (summary : table) (e : entry) :
  is_aggregate e = true -> step summary e = Ok summary.
Proof. intros H. unfold step. by rewrite H. Qed.

Lemma step_unnamed (summary : table) (e : entry) :
  default "" (name e) = "" -> step summary e = Ok summary.
Proof.
  intros H. unfold step. rewrite H. simpl. by destruct (is_aggregate e).
Qed.

Lemma step_contributes (summary : table) (e : entry) k engine ns :
  contributes e k engine ns ->
  step summary e = Ok (set_engine summary k engine ns).
Proof.
  intros (x & (Hagg & n & Hn & Hne & Hp & Ho & Hf) & Ht).
  unfold step. rewrite Hagg, Hn. simpl.
  destruct n as [|c n]; [done|]. simpl. rewrite Hp. simpl.
  destruct (String.eqb_spec engine "other") as [->|_]; [done|].
  rewrite Hf. simpl. rewrite Ht. simpl. by destruct k.
Qed.

(** A step that returns either leaves the table as it is or stores the
    value of an entry that contributes. *)
Lemma step_ok (summary summary' : table) (e : entry) :
  step summary e = Ok summary' ->
  summary' = summary \/
  exists k engine ns,
    contributes e k engine ns /\ summary' = set_engine summary k engine ns.
Proof.
  unfold step. destruct (is_aggregate e) eqn:Hagg; [left; congruence|].
  destruct (name e) as [n|] eqn:Hn; simpl; [|left; congruence].
  destruct (str_truthy n) eqn:Hne; simpl; [|left; congruence].
  destruct (parse_name n) as [[[case rows] engine]|] eqn:Hp; simpl; [|done].
  destruct (String.eqb_spec engine "other") as [->|Ho]; [left; congruence|].
  destruct (py_float _) as [x|] eqn:Hf; simpl; [|done].
  destruct (to_ns x _) as [ns|] eqn:Ht; simpl; [|done].
  intros [= <-]. right. exists (case, rows), engine, ns. split; [|done].
  exists x. split; [|done]. split; [done|]. exists n.
  repeat split; try done. by intros ->.
Qed.

Lemma step_converts (summary : table) (e : entry) k engine x :
  converts e k engine x ->
  step summary e =
  ns ← to_ns x (default "ns" (time_unit e));
  Ok (set_engine summary k engine ns).
Proof.
  intros (Hagg & n & Hn & Hne & Hp & Ho & Hf).
  unfold step. rewrite Hagg, Hn. simpl.
  destruct n as [|c n]; [done|]. simpl. rewrite Hp. simpl.
  destruct (String.eqb_spec engine "other") as [->|_]; [done|].
  rewrite Hf. simpl. by destruct k.
Qed.

(** Whether the body raises does not depend on the table. *)
Lemma step_is_ok (s1 s2 : table) (e : entry) :
  is_ok (step s1 e) = is_ok (step s2 e).
Proof.
  unfold step. destruct (is_aggregate e); [done|].
  destruct (str_truthy _); simpl; [|done].
  destruct (parse_name _) as [[[case rows] engine]|]; simpl; [|done].
  destruct (String.eqb engine "other"); [done|].
  destruct (py_float _); simpl; [|done].
  by destruct (to_ns _ _).
Qed.

Lemma step_raise (s1 s2 : table) (e : entry) x :
  step s1 e = Raise x -> step s2 e = Raise x.
Proof.
  unfold step. destruct (is_aggregate e); [done|].
  destruct (str_truthy _); simpl; [|done].
  destruct (parse_name _) as [[[case rows] engine]|]; simpl; [|done].
  destruct (String.eqb engine "other"); [done|].
  destruct (py_float _); simpl; [|done].
  by destruct (to_ns _ _).
Qed.

(** ** The loop *)

Lemma aggregate_from_app (summary : table) (l1 l2 : list entry) :
  aggregate_from summary (l1 ++ l2) =
  summary' ← aggregate_from summary l1; aggregate_from summary' l2.
Proof.
  revert summary. induction l1 as [|e l1 IH]; intros summary; [done|].
  simpl. destruct (step summary e); simpl; [apply IH|done].
Qed.

Lemma aggregate_from_raise (s1 s2 : table) (entries : list entry) x :
  aggregate_from s1 entries = Raise x ->
  exists y, aggregate_from s2 entries = Raise y.
Proof.
  revert s1 s2. induction entries as [|e l IH]; intros s1 s2; [done|].
  simpl. destruct (step s1 e) as [s1'|y] eqn:H1; simpl.
  - intros Hl. destruct (step s2 e) as [s2'|z]; simpl; [by eapply IH|by eexists].
  - intros [= <-]. rewrite (step_raise s1 s2 e y H1). by eexists.
Qed.

(** The loop returns exactly when the body accepts every entry. *)
Lemma aggregate_from_is_ok (summary : table) (entries : list entry) :
  is_ok (aggregate_from summary entries) = true <->
  Forall (fun e => is_ok (step ∅ e) = true) entries.
Proof.
  revert summary. induction entries as [|e l IH]; intros summary; simpl.
  - split; [constructor|done].
  - rewrite Forall_cons, <- (step_is_ok summary ∅ e).
    destruct (step summary e) as [s'|x]; simpl.
    + rewrite IH. tauto.
    + split; [done|]. by intros [? _].
Qed.

(** ** The emission *)

Lemma ratio_field_guarded (row : gmap string float) :
  exists ratio,
    ratio_field (row_get row "entropy") (row_get row "sqlite") = Ok ratio /\
    guarded_ratio row ratio.
Proof.
  unfold guarded_ratio, row_get, ratio_field, py_truediv.
  destruct (row !! "entropy") as [e|], (row !! "sqlite") as [s|];
    try (by eexists).
  destruct (s =? 0)%float; simpl; by eexists.
Qed.

Lemma summary_row_ok (summary : table) (k : key) (row : gmap string float) :
  summary !! k = Some row ->
  exists ratio,
    summary_row summary k =
      Ok [FStr k.1; FInt k.2; row_get row "entropy"; row_get row "sqlite";
          ratio] /\
    guarded_ratio row ratio.
Proof.
  intros Hrow. destruct k as [case rows]. unfold summary_row. rewrite Hrow.
  destruct (ratio_field_guarded row) as (ratio & -> & Hratio).
  by exists ratio.
Qed.

(** The emission loop goes through all the keys it is given, as long as
    they are keys of the table. *)
Lemma write_rows_ok (summary : table) (keys : list key) :
  Forall (fun k => is_Some (summary !! k)) keys ->
  exists rows,
    write_rows summary keys = (rows, None) /\
    Forall2 (fun k fields =>
      exists row ratio,
        summary !! k = Some row /\
        fields = [FStr k.1; FInt k.2; row_get row "entropy";
                  row_get row "sqlite"; ratio] /\
        guarded_ratio row ratio) keys rows.
Proof.
  induction 1 as [|k keys [row Hrow] _ (rows & IH & Hrows)]; simpl.
  - by exists [].
  - destruct (summary_row_ok summary k row Hrow) as (ratio & -> & Hratio).
    rewrite IH. eexists; split; [done|]. constructor; [|done].
    by exists row, ratio.
Qed.

Lemma sorted_keys_perm (summary : table) :
  sorted_keys summary ≡ₚ (map_to_list summary).*1.
Proof. apply merge_sort_Permutation. Qed.

Lemma elem_of_sorted_keys (summary : table) (k : key) :
  k ∈ sorted_keys summary <-> is_Some (summary !! k).
Proof.
  rewrite sorted_keys_perm, list_elem_of_fmap. split.
  - intros ([k' row] & -> & H%elem_of_map_to_list). by exists row.
  - intros [row H]. exists (k, row). by rewrite elem_of_map_to_list.
Qed.

Lemma emit_ok (summary : table) :
  exists rows,
    emit summary = (header :: rows, None) /\
    Forall2 (fun k fields =>
      exists row ratio,
        summary !! k = Some row /\
        fields = [FStr k.1; FInt k.2; row_get row "entropy";
                  row_get row "sqlite"; ratio] /\
        guarded_ratio row ratio) (sorted_keys summary) rows.
Proof.
  destruct (write_rows_ok summary (sorted_keys summary)) as (rows & H & Hrows).
  { apply Forall_forall. intros k. by rewrite elem_of_sorted_keys. }
  exists rows. unfold emit. by rewrite H.
Qed.

(** ** The unit converter *)

Lemma to_ns_unsupported (v : float) (u : string) :
  u <> "ns" -> u <> "us" -> u <> "ms" -> u <> "s" ->
  to_ns v u = Raise (ValueError ("Unsupported time unit: " ++ u)).
Proof.
  intros Hns Hus Hms Hs. unfold to_ns.
  destruct (String.eqb_spec u "ns"); [done|].
  destruct (String.eqb_spec u "us"); [done|].
  destruct (String.eqb_spec u "ms"); [done|].
  by destruct (String.eqb_spec u "s").
Qed.

(** C2: [to_ns] returns a value in nanoseconds as it is, and multiplies a
    value in microseconds, milliseconds or seconds by a thousand, a
    million or a thousand million; so one microsecond, millisecond and
    second are 1000, 1000000 and 1000000000 nanoseconds, and five
    nanoseconds are five. *)
Theorem to_ns_units :
  (forall v, to_ns v "ns" = Ok v) /\
  (forall v, to_ns v "us" = Ok (v * 1000)%float) /\
  (forall v, to_ns v "ms" = Ok (v * 1000000)%float) /\
  (forall v, to_ns v "s" = Ok (v * 1000000000)%float) /\
  to_ns 1 "us" = Ok 1000%float /\
  to_ns 1 "ms" = Ok 1000000%float /\
  to_ns 1 "s" = Ok 1000000000%float /\
  to_ns 5 "ns" = Ok 5%float.
Proof. repeat split. Qed.

(** C3: for a unit other than ns, us, ms and s, [to_ns] raises the
    ValueError whose message names the unit; and when the loop, having
    gone through the entries before without an exception, reaches an
    entry with such a unit that it does not skip, the run ends with that
    exception and the output file is never opened. *)
Theorem unsupported_unit_is_fatal
    (u : string) (before after : list entry) (e : entry) (summary : table)
    (k : key) (engine : string) (x : float) (prog input output : string) :
  u <> "ns" -> u <> "us" -> u <> "ms" -> u <> "s" ->
  aggregate before = Ok summary ->
  converts e k engine x ->
  time_unit e = Some u ->
  (forall v, to_ns v u = Raise (ValueError ("Unsupported time unit: " ++ u)))
  /\ main [prog; input; output] (loads (before ++ e :: after)) =
     Outcome [] None (Raise (ValueError ("Unsupported time unit: " ++ u))).
Proof.
  intros Hns Hus Hms Hs Hbefore Hconv Hunit. split.
  - intros v. by apply to_ns_unsupported.
  - unfold main, loads. simpl. unfold aggregate.
    rewrite aggregate_from_app. fold (aggregate before). rewrite Hbefore.
    simpl. rewrite (step_converts _ _ _ _ _ Hconv), Hunit. simpl.
    by rewrite to_ns_unsupported.
Qed.

(** C4: the emission writes, without an exception, one row for each key;
    the ratio field of a row is the entropy value divided by the sqlite
    value when the row has both and the sqlite value is not zero, and the
    empty string in every other case. *)
Theorem ratio_is_guarded (summary : table) :
  exists rows,
    emit summary = (header :: rows, None) /\
    forall fields, fields ∈ rows ->
      exists case n row ratio,
        summary !! (case, n) = Some row /\
        fields = [FStr case; FInt n; row_get row "entropy";
                  row_get row "sqlite"; ratio] /\
        guarded_ratio row ratio.
Proof.
  destruct (emit_ok summary) as (rows & Hemit & Hrows).
  exists rows. split; [done|]. intros fields Hin.
  destruct (proj1 (list_elem_of_lookup _ _) Hin) as [i Hi].
  destruct (Forall2_lookup_r _ _ _ _ _ Hrows Hi)
    as ([case n] & _ & row & ratio & Hrow & -> & Hratio).
  by exists case, n, row, ratio.
Qed.

(** ** The table during the loop *)

Lemma lookup_set_engine (summary : table) k engine ns k' :
  set_engine summary k engine ns !! k' =
  if decide (k = k')
  then Some (<[engine := ns]> (default ∅ (summary !! k)))
  else summary !! k'.
Proof. unfold set_engine. by rewrite lookup_insert. Qed.

Lemma cell_set_engine (summary : table) k engine ns k' engine' :
  cell (set_engine summary k engine ns) k' engine' =
  if decide (k = k' /\ engine = engine') then Some ns
  else cell summary k' engine'.
Proof.
  unfold cell. rewrite lookup_set_engine.
  destruct (decide (k = k')) as [<-|Hk]; simpl.
  - rewrite lookup_insert.
    destruct (decide (engine = engine')) as [<-|Hg].
    + by rewrite decide_True.
    + rewrite decide_False by tauto. by destruct (summary !! k).
  - by rewrite decide_False by tauto.
Qed.

Lemma cell_is_Some (summary : table) k engine ns :
  cell summary k engine = Some ns <->
  exists row, summary !! k = Some row /\ row !! engine = Some ns.
Proof.
  unfold cell. destruct (summary !! k) as [row|]; simpl.
  - split; [by exists row|]. by intros (? & [= <-] & ?).
  - split; [done|]. by intros (? & ? & ?).
Qed.

(** An entry the body skips can be left out of the input. *)
Lemma aggregate_from_skip (summary : table) (l1 l2 : list entry) (e : entry) :
  (forall s, step s e = Ok s) ->
  aggregate_from summary (l1 ++ e :: l2) = aggregate_from summary (l1 ++ l2).
Proof.
  intros Hskip. rewrite !aggregate_from_app.
  destruct (aggregate_from summary l1) as [s|x]; simpl; [|done].
  by rewrite Hskip.
Qed.

(** Every value in the table was there at the start or comes from an
    entry that contributes it. *)
Lemma aggregate_from_cell (summary t : table) (entries : list entry)
    k engine ns :
  aggregate_from summary entries = Ok t ->
  cell t k engine = Some ns ->
  cell summary k engine = Some ns \/
  exists e, e ∈ entries /\ contributes e k engine ns.
Proof.
  revert summary. induction entries as [|e l IH]; intros summary; simpl.
  - intros [= ->]. by left.
  - destruct (step summary e) as [s'|x] eqn:Hstep; simpl; [|done].
    intros Hl Hcell. destruct (IH s' Hl Hcell) as [Hs'|(e' & Hin & He')].
    + destruct (step_ok _ _ _ Hstep) as [->|(k' & g' & v' & Hc & ->)].
      * by left.
      * rewrite cell_set_engine in Hs'.
        destruct (decide _) as [[<- <-]|_]; [|by left].
        injection Hs' as <-. right. exists e. split; [left|done].
    + right. exists e'. split; [by right|done].
Qed.

(** Every key of the table was there at the start or comes from an entry
    that contributes to it. *)
Lemma aggregate_from_key (summary t : table) (entries : list entry) k :
  aggregate_from summary entries = Ok t ->
  is_Some (t !! k) ->
  is_Some (summary !! k) \/
  exists e engine ns, e ∈ entries /\ contributes e k engine ns.
Proof.
  revert summary. induction entries as [|e l IH]; intros summary; simpl.
  - intros [= ->]. by left.
  - destruct (step summary e) as [s'|x] eqn:Hstep; simpl; [|done].
    intros Hl Hkey.
    destruct (IH s' Hl Hkey) as [Hs'|(e' & g & v & Hin & He')].
    + destruct (step_ok _ _ _ Hstep) as [->|(k' & g' & v' & Hc & ->)].
      * by left.
      * rewrite lookup_set_engine in Hs'.
        destruct (decide (k' = k)) as [<-|_]; [|by left].
        right. exists e, g', v'. split; [left|done].
    + right. exists e', g, v. split; [by right|done].
Qed.

(** Keys stay in the table. *)
Lemma aggregate_from_keeps (summary t : table) (entries : list entry) k :
  aggregate_from summary entries = Ok t ->
  is_Some (summary !! k) -> is_Some (t !! k).
Proof.
  revert summary. induction entries as [|e l IH]; intros summary; simpl.
  - by intros [= ->].
  - destruct (step summary e) as [s'|x] eqn:Hstep; simpl; [|done].
    intros Hl Hkey. apply (IH s' Hl).
    destruct (step_ok _ _ _ Hstep) as [->|(k' & g' & v' & Hc & ->)]; [done|].
    rewrite lookup_set_engine. by destruct (decide (k' = k)).
Qed.

(** The key of an entry that contributes is in the table. *)
Lemma aggregate_from_adds (summary t : table) (entries : list entry)
    e k engine ns :
  aggregate_from summary entries = Ok t ->
  e ∈ entries -> contributes e k engine ns ->
  is_Some (t !! k).
Proof.
  revert summary. induction entries as [|e' l IH]; intros summary; simpl.
  - intros _ Hin. by apply elem_of_nil in Hin.
  - destruct (step summary e') as [s'|x] eqn:Hstep; simpl; [|done].
    intros Hl [<-|Hin]%elem_of_cons Hc; [|by eapply IH].
    rewrite (step_contributes _ _ _ _ _ Hc) in Hstep. injection Hstep as <-.
    apply (aggregate_from_keeps _ _ _ _ Hl).
    rewrite lookup_set_engine, decide_True by done. by eexists.
Qed.

(** A value stays as it is while no entry contributes to its place. *)
Lemma aggregate_from_untouched (summary t : table) (entries : list entry)
    k engine :
  aggregate_from summary entries = Ok t ->
  (forall e ns, e ∈ entries -> ~ contributes e k engine ns) ->
  cell t k engine = cell summary k engine.
Proof.
  revert summary. induction entries as [|e l IH]; intros summary; simpl.
  - by intros [= ->].
  - destruct (step summary e) as [s'|x] eqn:Hstep; simpl; [|done].
    intros Hl Hnone. rewrite (IH s' Hl).
    + destruct (step_ok _ _ _ Hstep) as [->|(k' & g' & v' & Hc & ->)]; [done|].
      rewrite cell_set_engine. destruct (decide _) as [[<- <-]|_]; [|done].
      destruct (Hnone e v'); [left|done].
    + intros e' ns Hin. apply Hnone. by right.
Qed.

(** ** The name parser *)

(** What [parse_name] returns, read off its three steps. *)
Lemma parse_name_ok (n case engine : string) (rows : Z) :
  parse_name n = Ok (case, rows, engine) <->
  (if str_truthy (partition "/" n).2
   then py_int (partition "/" n).2 = Some rows else rows = 0) /\
  engine = (if contains "Entropy" (partition "/" n).1.1 then "entropy"
            else if contains "Sqlite" (partition "/" n).1.1 then "sqlite"
            else "other") /\
  case = (if contains "InsertBatch" (partition "/" n).1.1 then "insert_batch"
          else if contains "PointSelect" (partition "/" n).1.1
               then "point_select"
          else (partition "/" n).1.1).
Proof.
  unfold parse_name. destruct (partition "/" n) as [[base mid] arg]. simpl.
  destruct (str_truthy arg).
  - destruct (py_int arg) as [z|]; simpl.
    + split; [by intros [= <- <- <-]|]. by intros ([= ->] & -> & ->).
    + split; [done|]. by intros ([=] & _).
  - simpl. split; [by intros [= <- <- <-]|]. by intros (-> & -> & ->).
Qed.

Lemma parse_name_raise (n : string) x :
  parse_name n = Raise x <->
  (partition "/" n).2 <> "" /\ py_int (partition "/" n).2 = None /\
  x = ValueError (int_error_message (partition "/" n).2).
Proof.
  unfold parse_name. destruct (partition "/" n) as [[base mid] arg]. simpl.
  destruct arg as [|c arg]; simpl; [by split; [|intros (? & _)]|].
  destruct (py_int _) as [z|]; simpl.
  - split; [done|]. by intros (_ & [=] & _).
  - split; [by intros [= <-]|]. by intros (_ & _ & ->).
Qed.

(** The engine of an entry that contributes is entropy or sqlite, and the
    base of its name holds the matching token. *)
Lemma contributes_engine (e : entry) k engine ns :
  contributes e k engine ns ->
  exists n, name e = Some n /\
    (engine = "entropy" /\ contains "Entropy" (partition "/" n).1.1 = true \/
     engine = "sqlite" /\ contains "Sqlite" (partition "/" n).1.1 = true).
Proof.
  intros (x & (_ & n & Hn & _ & Hp & Ho & _) & _). exists n. split; [done|].
  apply parse_name_ok in Hp as (_ & Hg & _).
  destruct (contains "Entropy" _); [by left|].
  destruct (contains "Sqlite" _); [by right|]. done.
Qed.

(** ** The claims about the aggregation *)

(** C6: when two entries contribute to the same key and engine and none
    after the second does, the table holds the value of the second, and
    so not the value of the first when the two differ; the run raises no
    exception over it, provided the body accepts the other entries. *)
Theorem last_write_wins
    (l1 l2 l3 : list entry) (e1 e2 : entry) (k : key) (engine : string)
    (v1 v2 : float) :
  contributes e1 k engine v1 ->
  contributes e2 k engine v2 ->
  (forall e ns, e ∈ l3 -> ~ contributes e k engine ns) ->
  Forall (fun e => is_ok (step ∅ e) = true) (l1 ++ l2 ++ l3) ->
  exists t,
    aggregate (l1 ++ e1 :: l2 ++ e2 :: l3) = Ok t /\
    cell t k engine = Some v2 /\
    (v1 <> v2 -> cell t k engine <> Some v1).
Proof.
  intros H1 H2 Hlast Hothers.
  assert (Hall : is_ok (aggregate (l1 ++ e1 :: l2 ++ e2 :: l3)) = true).
  { apply aggregate_from_is_ok.
    rewrite !Forall_app in Hothers.
    rewrite Forall_app, Forall_cons, Forall_app, Forall_cons. simpl.
    rewrite (step_contributes _ _ _ _ _ H1), (step_contributes _ _ _ _ _ H2).
    tauto. }
  destruct (aggregate _) as [t|] eqn:Ht; [|done]. exists t.
  assert (Hcell : cell t k engine = Some v2).
  { unfold aggregate in Ht. rewrite aggregate_from_app in Ht.
    destruct (aggregate_from ∅ l1) as [s1|]; simpl in Ht; [|done].
    rewrite (step_contributes _ _ _ _ _ H1) in Ht. simpl in Ht.
    rewrite aggregate_from_app in Ht.
    destruct (aggregate_from _ l2) as [s|]; simpl in Ht; [|done].
    rewrite (step_contributes _ _ _ _ _ H2) in Ht. simpl in Ht.
    rewrite (aggregate_from_untouched _ _ _ _ _ Ht Hlast), cell_set_engine.
    by rewrite decide_True. }
  repeat split; [done|]. rewrite Hcell. congruence.
Qed.

Lemma main_aggregate (l1 l2 : list entry) (argv : list string) :
  aggregate l1 = aggregate l2 -> main argv (loads l1) = main argv (loads l2).
Proof.
  intros H. unfold main, loads. simpl. by rewrite H.
Qed.

(** C7: an entry marked as an aggregate, whatever its name and its other
    members, changes neither the table nor the outcome of the run: both
    are what they are for the input without it. *)
Theorem aggregate_entries_are_skipped
    (l1 l2 : list entry) (e : entry) (argv : list string) :
  is_aggregate e = true ->
  aggregate (l1 ++ e :: l2) = aggregate (l1 ++ l2) /\
  main argv (loads (l1 ++ e :: l2)) = main argv (loads (l1 ++ l2)).
Proof.
  intros Hagg.
  assert (H : aggregate (l1 ++ e :: l2) = aggregate (l1 ++ l2)).
  { apply aggregate_from_skip. intros s. by apply step_aggregate. }
  split; [done|]. by apply main_aggregate.
Qed.

(** ** [int] reads the integer literals *)

Ltac ascii_cases c :=
  destruct c as [[|] [|] [|] [|] [|] [|] [|] [|]]; vm_compute;
  try done; try congruence.

Lemma digit_not_underscore (c : ascii) :
  is_digit c = true -> Ascii.eqb c "_" = false.
Proof. ascii_cases c. Qed.

Lemma digit_not_space (c : ascii) :
  is_digit c = true -> py_isspace c = false.
Proof. ascii_cases c. Qed.

Lemma digit_not_sign (c : ascii) :
  is_digit c = true -> c <> "+"%char /\ c <> "-"%char.
Proof. ascii_cases c. Qed.

Lemma space_not_digit (c : ascii) :
  py_isspace c = true -> is_digit c = false /\ c <> "_"%char.
Proof. ascii_cases c. Qed.

Lemma digit_value_nonneg (c : ascii) :
  is_digit c = true -> 0 <= digit_value c.
Proof. ascii_cases c. Qed.

Lemma append_assoc (s1 s2 s3 : string) :
  (s1 ++ s2) ++ s3 = s1 ++ s2 ++ s3.
Proof. induction s1 as [|c s1 IH]; simpl; [done|]. by rewrite IH. Qed.

Lemma append_empty_r (s : string) : s ++ "" = s.
Proof. induction s as [|c s IH]; simpl; [done|]. by rewrite IH. Qed.

Lemma skip_spaces_split (s : string) :
  exists ws, s = ws ++ skip_spaces s /\ all_spaces ws.
Proof.
  induction s as [|c s (ws & IH & Hws)]; simpl.
  - by exists "".
  - destruct (py_isspace c) eqn:Hc.
    + exists (String c ws). simpl. by rewrite <- IH.
    + by exists "".
Qed.

Lemma skip_spaces_empty (s : string) : skip_spaces s = "" -> all_spaces s.
Proof.
  induction s as [|c s IH]; simpl; [done|].
  destruct (py_isspace c); [|done]. auto.
Qed.

Lemma skip_spaces_all (ws s : string) :
  all_spaces ws -> skip_spaces (ws ++ s) = skip_spaces s.
Proof.
  induction ws as [|c ws IH]; simpl; [done|]. intros [-> H]. auto.
Qed.

Lemma count_digits_app (s1 s2 : string) :
  count_digits (s1 ++ s2) = (count_digits s1 + count_digits s2)%nat.
Proof. induction s1 as [|c s1 IH]; simpl; [done|]. rewrite IH. lia. Qed.

Lemma count_digits_spaces (ws : string) :
  all_spaces ws -> count_digits ws = 0%nat.
Proof.
  induction ws as [|c ws IH]; simpl; [done|].
  intros [[-> _]%space_not_digit H]. auto.
Qed.

Lemma digit_run_count (body : string) :
  digit_run body -> count_digits body <> 0%nat.
Proof. destruct 1; simpl; rewrite H; simpl; lia. Qed.

(** What the scan has read is a [tail_run], it counts its digits, and the
    value it returns is not negative. *)
Lemma scan_digits_sound (str : string) prev acc digits value digits' rest :
  scan_digits str prev acc digits = Some (value, digits', rest) ->
  exists body,
    str = body ++ rest /\ tail_run prev body /\
    digits' = (digits + count_digits body)%nat /\
    (0 <= acc -> 0 <= value).
Proof.
  revert prev acc digits.
  induction str as [|c str IH]; intros prev acc digits; simpl.
  - destruct (Ascii.eqb_spec prev "_"); [done|]. intros [= <- <- <-].
    exists "". simpl. split; [done|]. split; [done|]. split; [lia|done].
  - destruct (is_digit c) eqn:Hc.
    + intros (body & -> & Hrun & -> & Hval)%IH.
      exists (String c body). simpl. rewrite Hc.
      split; [done|]. split; [by left|]. split; [lia|].
      intros Hacc. apply Hval. pose proof (digit_value_nonneg c Hc). lia.
    + destruct (Ascii.eqb_spec c "_") as [->|Hu].
      * destruct (Ascii.eqb_spec prev "_"); [done|].
        intros (body & -> & Hrun & -> & Hval)%IH.
        exists (String "_" body). simpl.
        split; [done|]. split; [by right|]. by split.
      * destruct (Ascii.eqb_spec prev "_"); [done|]. intros [= <- <- <-].
        exists "". simpl. split; [done|]. split; [done|]. split; [lia|done].
Qed.

(** A run read after a digit, or after a digit and an underscore, makes a
    digit run with that digit. *)
Lemma tail_run_digit_run (body : string) (c : ascii) :
  is_digit c = true ->
  (tail_run c body -> digit_run (String c body)) /\
  (tail_run "_" body -> digit_run (String c (String "_" body))).
Proof.
  revert c. induction body as [|d body IH]; intros c Hc; simpl.
  - split; [intros _; by constructor|done].
  - split.
    + intros [[Hd Hrun]|(-> & _ & Hrun)].
      * apply digit_run_digit; [done|]. by apply IH.
      * by apply IH.
    + intros [[Hd Hrun]|(_ & Hne & _)]; [|done].
      apply digit_run_sep; [done|]. by apply IH.
Qed.

Lemma py_int_sound (s : string) (z : Z) :
  py_int s = Some z ->
  int_literal s /\ (z < 0 -> exists rest, skip_spaces s = String "-" rest).
Proof.
  unfold py_int. destruct (skip_spaces_split s) as (ws1 & Hs & Hws1).
  destruct (split_sign (skip_spaces s)) as [sign str] eqn:Hsign.
  assert (Hparts : exists sg,
    skip_spaces s = sg ++ str /\
    (sg = "" /\ sign = 1 \/ sg = "+" /\ sign = 1 \/ sg = "-" /\ sign = -1)).
  { unfold split_sign in Hsign.
    destruct (skip_spaces s) as [|c t]; [injection Hsign as <- <-; exists ""; auto|].
    destruct (Ascii.eqb_spec c "+") as [->|Hplus];
      [injection Hsign as <- <-; exists "+"; auto|].
    destruct (Ascii.eqb_spec c "-") as [->|Hminus];
      [injection Hsign as <- <-; exists "-"; auto|].
    injection Hsign as <- <-. exists "". auto. }
  destruct Hparts as (sg & Hsg & Hcases).
  intros Hint.
  assert (Hscan : exists value digits rest,
    scan_digits str "000" 0 0 = Some (value, digits, rest) /\
    digits <> 0%nat /\ skip_spaces rest = "" /\ z = sign * value /\
    (forall t, str <> String "_" t)).
  { destruct (starts_with "_" str) eqn:Hu; [done|].
    destruct (scan_digits _ _ _ _) as [[[value digits] rest]|]; [|done].
    destruct (Nat.eqb_spec digits 0); [done|].
    destruct (over_digit_limit digits); [done|].
    destruct (skip_spaces rest) eqn:Hrest; [|done].
    injection Hint as <-. exists value, digits, rest.
    repeat split; try done. by intros t' ->. }
  destruct Hscan as (value & digits & rest & Hscan & Hdigits & Hrest & -> & Hu).
  apply scan_digits_sound in Hscan as (body & -> & Hrun & -> & Hval).
  split.
  - exists ws1, sg, body, rest. repeat split.
    + by rewrite <- Hsg.
    + done.
    + tauto.
    + destruct body as [|c body]; [done|]. simpl in Hrun.
      destruct Hrun as [[Hc Hrun]|(-> & _)]; [|by destruct (Hu (body ++ rest))].
      by apply tail_run_digit_run.
    + by apply skip_spaces_empty.
  - intros Hneg. exists (body ++ rest). rewrite Hsg.
    destruct Hcases as [[_ ->]|[[_ ->]|[-> _]]]; [lia|lia|done].
Qed.

Lemma scan_digits_stop (rest : string) prev acc digits :
  scan_stop rest -> prev <> "_"%char ->
  scan_digits rest prev acc digits = Some (acc, digits, rest).
Proof.
  intros Hstop Hprev. destruct rest as [|c rest]; simpl.
  - by destruct (Ascii.eqb_spec prev "_").
  - destruct Hstop as [-> Hc].
    destruct (Ascii.eqb_spec c "_"); [done|].
    by destruct (Ascii.eqb_spec prev "_").
Qed.

Lemma digit_neq_underscore (c : ascii) :
  is_digit c = true -> c <> "_"%char.
Proof. by intros H%digit_not_underscore ->. Qed.

(** The scan reads a digit run to its end. *)
Lemma scan_digits_complete (body rest : string) :
  digit_run body -> scan_stop rest ->
  forall prev acc digits, exists value,
    scan_digits (body ++ rest) prev acc digits =
    Some (value, (digits + count_digits body)%nat, rest).
Proof.
  intros Hrun Hstop.
  induction Hrun as [c Hc|c s Hc _ IH|c s Hc _ IH]; intros prev acc digits;
    simpl; rewrite Hc.
  - rewrite scan_digits_stop by auto using digit_neq_underscore.
    eexists. do 2 f_equal. f_equal. lia.
  - destruct (IH c (10 * acc + digit_value c) (S digits)) as [v ->].
    eexists. do 2 f_equal. f_equal. lia.
  - rewrite (digit_not_underscore c Hc).
    destruct (IH "_"%char (10 * acc + digit_value c) (S digits)) as [v ->].
    eexists. do 2 f_equal. f_equal. lia.
Qed.

Lemma digit_run_head (body : string) :
  digit_run body -> exists c t, body = String c t /\ is_digit c = true.
Proof. destruct 1; eauto. Qed.

Lemma all_spaces_stop (ws : string) : all_spaces ws -> scan_stop ws.
Proof. destruct ws as [|c ws]; [done|]. intros [H _]. by apply space_not_digit. Qed.

Lemma all_spaces_skip (ws : string) : all_spaces ws -> skip_spaces ws = "".
Proof. induction ws as [|c ws IH]; simpl; [done|]. intros [-> H]. auto. Qed.

(** After an optional sign, [int] goes on with the digit scan when the
    text starts with a digit. *)
Lemma py_int_digits (sg : string) (c : ascii) (t : string) :
  sg = "" \/ sg = "+" \/ sg = "-" ->
  is_digit c = true ->
  py_int (sg ++ String c t) =
  match scan_digits (String c t) "000" 0 0 with
  | Some (value, digits, rest) =>
      if Nat.eqb digits 0 then None
      else if over_digit_limit digits then None
      else match skip_spaces rest with
           | EmptyString => Some ((if String.eqb sg "-" then -1 else 1) * value)
           | _ => None
           end
  | None => None
  end.
Proof.
  intros Hsg Hc. unfold py_int.
  destruct (digit_not_sign c Hc) as [Hplus Hminus].
  assert (split_sign (skip_spaces (sg ++ String c t)) =
          (if String.eqb sg "-" then -1 else 1, String c t)) as ->.
  { destruct Hsg as [->|[->| ->]]; simpl; [|done..].
    rewrite (digit_not_space c Hc). simpl.
    destruct (Ascii.eqb_spec c "+"); [done|].
    by destruct (Ascii.eqb_spec c "-"). }
  simpl. by rewrite (digit_not_underscore c Hc).
Qed.

Lemma py_int_complete (s : string) :
  int_literal s -> over_digit_limit (count_digits s) = false ->
  is_Some (py_int s).
Proof.
  intros (ws1 & sg & body & ws2 & -> & Hws1 & Hsg & Hrun & Hws2) Hlimit.
  rewrite !count_digits_app, (count_digits_spaces ws1 Hws1),
    (count_digits_spaces ws2 Hws2) in Hlimit.
  assert (count_digits sg = 0%nat) as Hsg0 by (by destruct Hsg as [->|[->| ->]]).
  rewrite Hsg0, Nat.add_0_r in Hlimit. simpl in Hlimit.
  destruct (digit_run_head body Hrun) as (c & t & Hbody & Hc).
  assert (py_int (ws1 ++ sg ++ body ++ ws2) = py_int (sg ++ body ++ ws2)) as ->.
  { unfold py_int. by rewrite skip_spaces_all. }
  destruct (scan_digits_complete body ws2 Hrun (all_spaces_stop _ Hws2)
              "000"%char 0 0%nat) as [value Hscan].
  rewrite Hbody in *.
  change (String c t ++ ws2) with (String c (t ++ ws2)) in *.
  rewrite (py_int_digits sg c (t ++ ws2) Hsg Hc), Hscan.
  change (0 + count_digits (String c t))%nat with (count_digits (String c t)).
  pose proof (digit_run_count _ Hrun) as Hcount.
  destruct (Nat.eqb_spec (count_digits (String c t)) 0); [done|].
  rewrite Hlimit, (all_spaces_skip ws2 Hws2). by eexists.
Qed.

Lemma aggregate_raises (entries : list entry) (e : entry) :
  e ∈ entries -> is_ok (step ∅ e) = false ->
  exists x, aggregate entries = Raise x.
Proof.
  intros Hin He. destruct (aggregate entries) as [t|x] eqn:Ht; [|by exists x].
  assert (Hok : is_ok (aggregate entries) = true) by by rewrite Ht.
  apply aggregate_from_is_ok in Hok.
  rewrite Forall_forall in Hok. specialize (Hok e Hin). congruence.
Qed.

(** C8: let the base of an entry's name hold neither the Entropy nor the
    Sqlite token.  Then [parse_name] can only classify it as other, the
    entry contributes nothing, and when its name parses, the table and the
    outcome of the run are those of the input without it.  Every value in
    a table is stored under entropy or sqlite, and comes from another
    entry. *)
Theorem other_entries_are_dropped (e : entry) (n : string) :
  name e = Some n ->
  contains "Entropy" (partition "/" n).1.1 = false ->
  contains "Sqlite" (partition "/" n).1.1 = false ->
  (forall case rows engine,
     parse_name n = Ok (case, rows, engine) -> engine = "other") /\
  (forall k engine ns, ~ contributes e k engine ns) /\
  (is_ok (parse_name n) = true ->
   forall l1 l2 argv,
     aggregate (l1 ++ e :: l2) = aggregate (l1 ++ l2) /\
     main argv (loads (l1 ++ e :: l2)) = main argv (loads (l1 ++ l2))) /\
  (forall entries t k engine ns,
     aggregate entries = Ok t -> cell t k engine = Some ns ->
     (engine = "entropy" \/ engine = "sqlite") /\
     exists e', e' ∈ entries /\ e' <> e /\ contributes e' k engine ns).
Proof.
  intros Hn He Hs.
  assert (Hother : forall case rows engine,
            parse_name n = Ok (case, rows, engine) -> engine = "other").
  { intros case rows engine (_ & -> & _)%parse_name_ok. by rewrite He, Hs. }
  assert (Hnot : forall k engine ns, ~ contributes e k engine ns).
  { intros k engine ns (n' & Hn' & Hcases)%contributes_engine.
    rewrite Hn in Hn'. injection Hn' as <-.
    destruct Hcases as [[_ H]|[_ H]]; congruence. }
  split; [done|]. split; [done|]. split.
  - intros Hok l1 l2 argv.
    assert (H : aggregate (l1 ++ e :: l2) = aggregate (l1 ++ l2)).
    { apply aggregate_from_skip. intros s. unfold step.
      destruct (is_aggregate e); [done|]. rewrite Hn. simpl.
      destruct (str_truthy n); simpl; [|done].
      destruct (parse_name n) as [[[case rows] engine]|] eqn:Hp; [|done].
      simpl. by rewrite (Hother _ _ _ eq_refl). }
    split; [done|]. by apply main_aggregate.
  - intros entries t k engine ns Ht Hcell.
    destruct (aggregate_from_cell _ _ _ _ _ _ Ht Hcell)
      as [Hempty|(e' & Hin & Hc)].
    { unfold cell in Hempty. by rewrite lookup_empty in Hempty. }
    split.
    + apply contributes_engine in Hc as (? & _ & [[-> _]|[-> _]]); auto.
    + exists e'. repeat split; try done. intros ->. by eapply Hnot.
Qed.


(** C10: when the text after the first slash of a name is not empty and
    not an integer literal, [parse_name] raises the ValueError of [int];
    an entry with such a name that is not marked as an aggregate ends the
    run with an exception, before the output file is opened.  And
    [parse_name] returns only when that text is empty or an integer
    literal. *)
Theorem invalid_rows_abort
    (n : string) (e : entry) (entries : list entry)
    (prog input output : string) :
  (partition "/" n).2 <> "" ->
  ~ int_literal (partition "/" n).2 ->
  e ∈ entries -> is_aggregate e = false -> name e = Some n ->
  parse_name n = Raise (ValueError (int_error_message (partition "/" n).2)) /\
  (exists x, main [prog; input; output] (loads entries) =
             Outcome [] None (Raise x)) /\
  (forall n', is_ok (parse_name n') = true ->
     (partition "/" n').2 = "" \/ int_literal (partition "/" n').2).
Proof.
  intros Harg Hlit Hin Hagg Hn.
  assert (Hraise : parse_name n =
            Raise (ValueError (int_error_message (partition "/" n).2))).
  { apply parse_name_raise. repeat split; [done|].
    destruct (py_int _) as [z|] eqn:Hz; [|done].
    by apply py_int_sound in Hz as [? _]. }
  repeat split; [done| |].
  - destruct (aggregate_raises entries e Hin) as [x Hx].
    { unfold step. rewrite Hagg, Hn. simpl.
      destruct n as [|c n]; [done|]. simpl. by rewrite Hraise. }
    exists x. unfold main, loads. simpl. by rewrite Hx.
  - intros n' Hok.
    destruct (parse_name n') as [[[case rows] engine]|] eqn:Hp; [|done].
    apply parse_name_ok in Hp as (Hrows & _).
    destruct (str_truthy _) eqn:Ht.
    + right. by apply py_int_sound in Hrows as [? _].
    + left. by apply str_truthy_false.
Qed.

(** ** The order of the rows *)

Lemma compare_refl (s : string) : String.compare s s = Eq.
Proof.
  pose proof (String.compare_antisym s s) as H.
  by destruct (String.compare s s).
Qed.

Lemma compare_lt_gt (s1 s2 : string) :
  String.compare s1 s2 = Lt <-> String.compare s2 s1 = Gt.
Proof.
  rewrite (String.compare_antisym s2 s1).
  by destruct (String.compare s1 s2).
Qed.

Lemma compare_lt_trans (s1 s2 s3 : string) :
  String.compare s1 s2 = Lt -> String.compare s2 s3 = Lt ->
  String.compare s1 s3 = Lt.
Proof.
  intros H12 H23.
  assert (Hle : String.le s1 s3).
  { transitivity s2; unfold String.le, String.leb; by rewrite ?H12, ?H23. }
  unfold String.le, String.leb in Hle.
  destruct (String.compare s1 s3) eqn:H13; [|done..].
  apply String.compare_eq_iff in H13 as ->.
  apply compare_lt_gt in H12. congruence.
Qed.

(** The order on keys compares the cases first and the rows next. *)
Lemma key_lt_lex (c1 c2 : string) (r1 r2 : Z) :
  key_lt (c1, r1) (c2, r2) <->
  String.compare c1 c2 = Lt \/ c1 = c2 /\ r1 < r2.
Proof.
  unfold key_lt, key_ltb. simpl.
  destruct (String.compare c1 c2) eqn:Hc.
  - apply String.compare_eq_iff in Hc as ->. rewrite Z.ltb_lt.
    split; [by right|]. by intros [?|[_ ?]].
  - split; [by left|done].
  - split; [done|]. intros [?|[-> _]]; [done|]. by rewrite compare_refl in Hc.
Qed.

Lemma key_le_lex (c1 c2 : string) (r1 r2 : Z) :
  key_le (c1, r1) (c2, r2) <->
  String.compare c1 c2 = Lt \/ c1 = c2 /\ r1 <= r2.
Proof.
  unfold key_le, key_ltb. simpl. rewrite (String.compare_antisym c2 c1).
  destruct (String.compare c1 c2) eqn:Hc; simpl.
  - apply String.compare_eq_iff in Hc as ->. rewrite Z.ltb_ge.
    split; [by right|]. by intros [?|[_ ?]].
  - split; [by left|done].
  - split; [done|]. intros [?|[-> _]]; [done|]. by rewrite compare_refl in Hc.
Qed.

#[local] Instance key_le_total : Total key_le.
Proof.
  intros [c1 r1] [c2 r2]. rewrite !key_le_lex.
  destruct (String.compare c1 c2) eqn:Hc.
  - apply String.compare_eq_iff in Hc as ->.
    destruct (Z.le_ge_cases r1 r2); [left|right]; right; split; done || lia.
  - by left; left.
  - right; left. by apply compare_lt_gt.
Qed.

#[local] Instance key_le_trans : Transitive key_le.
Proof.
  intros [c1 r1] [c2 r2] [c3 r3]. rewrite !key_le_lex.
  intros [H12|[-> H12]] [H23|[-> H23]].
  - left. by eapply compare_lt_trans.
  - by left.
  - by left.
  - right. split; [done|lia].
Qed.

#[local] Instance key_le_antisym : AntiSymm (=) key_le.
Proof.
  intros [c1 r1] [c2 r2]. rewrite !key_le_lex.
  intros [H12|[-> H12]] [H21|[? H21]].
  - apply compare_lt_gt in H12. congruence.
  - subst. by rewrite compare_refl in H12.
  - by rewrite compare_refl in H21.
  - f_equal. lia.
Qed.

Lemma key_lt_le (k1 k2 : key) : key_lt k1 k2 <-> key_le k1 k2 /\ k1 <> k2.
Proof.
  destruct k1 as [c1 r1], k2 as [c2 r2]. rewrite key_lt_lex, key_le_lex.
  split.
  - intros [H|[-> H]].
    + split; [by left|]. intros [= -> _]. by rewrite compare_refl in H.
    + split; [right; split; [done|lia]|]. intros [= ->]. lia.
  - intros [[H|[-> H]] Hne]; [by left|]. right. split; [done|].
    destruct (decide (r1 = r2)) as [->|]; [done|lia].
Qed.

Lemma StronglySorted_strict (keys : list key) :
  StronglySorted key_le keys -> NoDup keys -> StronglySorted key_lt keys.
Proof.
  induction 1 as [|k keys Hsorted IH Hall]; intros Hdup; constructor.
  - apply IH. by apply NoDup_cons in Hdup as [_ ?].
  - apply NoDup_cons in Hdup as [Hk _].
    rewrite Forall_forall in Hall |- *. intros k' Hin.
    apply key_lt_le. split; [by apply Hall|]. by intros ->.
Qed.

Lemma sorted_keys_NoDup (summary : table) : NoDup (sorted_keys summary).
Proof. rewrite sorted_keys_perm. apply NoDup_fst_map_to_list. Qed.

Lemma sorted_keys_sorted (summary : table) :
  StronglySorted key_lt (sorted_keys summary).
Proof.
  apply StronglySorted_strict; [|apply sorted_keys_NoDup].
  apply StronglySorted_merge_sort; apply _.
Qed.

(** The sorted keys depend on the set of keys only. *)
Lemma sorted_keys_same (t1 t2 : table) :
  (forall k, is_Some (t1 !! k) <-> is_Some (t2 !! k)) ->
  sorted_keys t1 = sorted_keys t2.
Proof.
  intros Hsame. apply (StronglySorted_unique key_le).
  - apply StronglySorted_merge_sort; apply _.
  - apply StronglySorted_merge_sort; apply _.
  - apply NoDup_Permutation; [apply sorted_keys_NoDup..|].
    intros k. by rewrite !elem_of_sorted_keys.
Qed.

Lemma emit_keys (summary : table) (rows : list (list field)) stop :
  emit summary = (header :: rows, stop) -> stop = None ->
  map row_key rows = map Some (sorted_keys summary).
Proof.
  destruct (emit_ok summary) as (rows' & -> & Hrows). intros [= <- _] _.
  induction Hrows as [|k fields keys rows (row & ratio & _ & -> & _) _ IH];
    simpl; [done|].
  rewrite IH. by destruct k.
Qed.

(** The set of keys of the table is the set of keys to which an entry of
    the input contributes. *)
Lemma aggregate_keys (entries : list entry) (t : table) (k : key) :
  aggregate entries = Ok t ->
  is_Some (t !! k) <->
  exists e engine ns, e ∈ entries /\ contributes e k engine ns.
Proof.
  intros Ht. split.
  - intros Hk. destruct (aggregate_from_key _ _ _ _ Ht Hk) as [H|H]; [|done].
    rewrite lookup_empty in H. by destruct H.
  - intros (e & engine & ns & Hin & Hc). by eapply aggregate_from_adds.
Qed.

(** C5: the emission writes one row for each key of the table, in
    strictly ascending order of the keys: by case, code point by code
    point, then by rows as integers.  The order depends on the set of keys
    only, and that set is the same for the same entries in any order. *)
Theorem rows_are_sorted (summary : table) :
  exists rows keys,
    emit summary = (header :: rows, None) /\
    map row_key rows = map Some keys /\
    StronglySorted key_lt keys /\
    (forall k, k ∈ keys <-> is_Some (summary !! k)) /\
    (forall c1 r1 c2 r2,
       key_lt (c1, r1) (c2, r2) <->
       String.compare c1 c2 = Lt \/ c1 = c2 /\ r1 < r2) /\
    (forall summary' rows',
       (forall k, is_Some (summary' !! k) <-> is_Some (summary !! k)) ->
       emit summary' = (header :: rows', None) ->
       map row_key rows' = map row_key rows) /\
    (forall entries entries' t',
       aggregate entries = Ok summary -> aggregate entries' = Ok t' ->
       entries ≡ₚ entries' ->
       forall k, is_Some (t' !! k) <-> is_Some (summary !! k)).
Proof.
  destruct (emit_ok summary) as (rows & Hemit & _).
  exists rows, (sorted_keys summary).
  split; [done|]. split; [by eapply emit_keys|].
  split; [apply sorted_keys_sorted|]. split; [apply elem_of_sorted_keys|].
  split; [intros; apply key_lt_lex|]. split.
  - intros summary' rows' Hsame Hemit'.
    rewrite (emit_keys _ _ _ Hemit' eq_refl), (emit_keys _ _ _ Hemit eq_refl).
    by rewrite (sorted_keys_same _ _ Hsame).
  - intros entries entries' t' Ht Ht' Hperm k.
    rewrite (aggregate_keys _ _ _ Ht), (aggregate_keys _ _ _ Ht').
    by setoid_rewrite Hperm.
Qed.

(** ** The end-to-end example *)

(** C1, as the code has it: for the two entries of the example the run
    writes the header and one data row and exits with status 0.  The row
    holds the case, the rows, the two timings as floats and their ratio,
    100 / 50000; its text is insert_batch,10,100.0,50000.0,0.002, the
    timings being written the way floats are. *)
Theorem end_to_end_example (prog input output : string) :
  main [prog; input; output] (loads example_entries) =
    Outcome []
      (Some (output,
             lines_text [header_line; "insert_batch,10,100.0,50000.0,0.002"]))
      (Ok 0) /\
  emit <$> aggregate example_entries =
    Ok ([header;
         [FStr "insert_batch"; FInt 10; FFloat 100; FFloat 50000;
          FFloat (100 / 50000)]], None).
Proof. split; vm_compute; reflexivity. Qed.

(** ** Further properties: the string operations *)

Lemma prefix_spec (needle hay : string) :
  String.prefix needle hay = true <-> exists post, hay = needle ++ post.
Proof.
  revert hay. induction needle as [|c needle IH]; intros [|d hay]; simpl.
  - split; [by exists ""|done].
  - split; [by eexists|done].
  - split; [done|]. intros [post H]. discriminate H.
  - destruct (ascii_dec c d) as [->|Hne].
    + rewrite IH. split; intros [post H]; exists post.
      * by rewrite H.
      * by injection H.
    + split; [done|]. intros [post H]. injection H as H _. congruence.
Qed.

Lemma contains_nil (needle : string) :
  contains needle "" = String.prefix needle "".
Proof. unfold contains. apply orb_false_r. Qed.

Lemma contains_cons (needle : string) (c : ascii) (hay : string) :
  contains needle (String c hay) =
  String.prefix needle (String c hay) || contains needle hay.
Proof. reflexivity. Qed.

Lemma contains_iff (needle hay : string) :
  contains needle hay = true <->
  exists pre post, hay = pre ++ needle ++ post.
Proof.
  induction hay as [|c hay IH].
  - rewrite contains_nil, prefix_spec. split.
    + intros [post H]. by exists "", post.
    + intros (pre & post & H). destruct pre; [by exists post|done].
  - rewrite contains_cons, orb_true_iff, prefix_spec, IH. split.
    + intros [[post H]|(pre & post & H)].
      * by exists "", post.
      * exists (String c pre), post. simpl. by rewrite H.
    + intros (pre & post & H). destruct pre as [|d pre].
      * left. by exists post.
      * right. injection H as _ H. by exists pre, post.
Qed.

(** [needle in hay] holds exactly when [hay] is some text, [needle], and
    some more text. *)
Theorem contains_spec (needle hay : string) :
  contains needle hay = true <->
  exists pre post, hay = pre ++ needle ++ post.
Proof. apply contains_iff. Qed.

Lemma contains_char (c : ascii) (s : string) :
  contains (String c "") s =
  match s with
  | EmptyString => false
  | String d rest => Ascii.eqb d c || contains (String c "") rest
  end.
Proof.
  destruct s as [|d rest]; [done|]. rewrite contains_cons. f_equal.
  simpl. destruct (ascii_dec c d) as [->|Hne].
  - rewrite Ascii.eqb_refl. by destruct rest.
  - by destruct (Ascii.eqb_spec d c).
Qed.

Lemma partition_cons (sep c : ascii) (s : string) :
  partition sep (String c s) =
  if Ascii.eqb c sep then ("", String sep "", s)
  else (String c (partition sep s).1.1, (partition sep s).1.2,
        (partition sep s).2).
Proof.
  simpl. destruct (Ascii.eqb c sep); [done|].
  by destruct (partition sep s) as [[before mid] after].
Qed.

Lemma partition_parts (s : string) :
  (partition "/" s).1.1 ++ (partition "/" s).1.2 ++ (partition "/" s).2 = s /\
  contains "/" (partition "/" s).1.1 = false /\
  (contains "/" s = true -> (partition "/" s).1.2 = "/") /\
  (contains "/" s = false -> partition "/" s = (s, "", "")).
Proof.
  induction s as [|c s (IH1 & IH2 & IH3 & IH4)]; [done|].
  rewrite partition_cons, (contains_char "/" (String c s)).
  destruct (Ascii.eqb_spec c "/") as [->|Hc]; [done|].
  cbn [fst snd orb]. rewrite contains_char.
  destruct (Ascii.eqb_spec c "/"); [done|]. cbn [orb].
  split; [|split; [done|split; [done|]]].
  - change (String c ((partition "/" s).1.1 ++
                      (partition "/" s).1.2 ++ (partition "/" s).2)
            = String c s).
    by rewrite IH1.
  - intros H. by rewrite (IH4 H).
Qed.

(** [partition] cuts a string at its first slash: the three parts make up
    the string again, the first holds no slash, the second is the slash
    when the string has one and is empty, with the third, when it has
    none. *)
Theorem partition_first_slash (s : string) :
  (partition "/" s).1.1 ++ (partition "/" s).1.2 ++ (partition "/" s).2 = s /\
  contains "/" (partition "/" s).1.1 = false /\
  (contains "/" s = true -> (partition "/" s).1.2 = "/") /\
  (contains "/" s = false -> partition "/" s = (s, "", "")).
Proof. apply partition_parts. Qed.

(** A name without a slash, or with nothing after its first slash, always
    parses, with rows 0. *)
Theorem parse_name_without_rows (n : string) :
  contains "/" n = false \/ (partition "/" n).2 = "" ->
  exists case engine, parse_name n = Ok (case, 0, engine).
Proof.
  intros H.
  assert (Harg : (partition "/" n).2 = "").
  { destruct H as [H|H]; [|done].
    by rewrite (proj2 (proj2 (proj2 (partition_parts n))) H). }
  unfold parse_name. destruct (partition "/" n) as [[base mid] arg].
  simpl in Harg. subst arg. simpl. by eexists _, _.
Qed.

(** ** Further properties: the run as a whole *)

(** With any number of arguments other than two after the program name,
    the run prints the usage line and returns 1; it reads and writes
    nothing. *)
Theorem wrong_argument_count (argv : list string)
    (load : string -> result document) :
  length argv <> 3%nat ->
  main argv load = Outcome [usage] None (Ok 1).
Proof.
  destruct argv as [|a0 [|a1 [|a2 [|a3 argv]]]]; simpl; try done.
Qed.

Lemma concat_cons (s : string) (l : list string) :
  String.concat "" (s :: l) = s ++ String.concat "" l.
Proof. destruct l; simpl; [by rewrite append_empty_r|done]. Qed.

Lemma csv_text_header (rows : list (list field)) :
  csv_text (header :: rows) = header_line ++ crlf ++ csv_text rows.
Proof.
  unfold csv_text. rewrite fmap_cons, concat_cons.
  change (csv_writerow header) with (header_line ++ crlf).
  by rewrite append_assoc.
Qed.

Lemma sorted_keys_length (summary : table) :
  length (sorted_keys summary) = size summary.
Proof.
  rewrite sorted_keys_perm, length_fmap. apply length_map_to_list.
Qed.

Lemma accepted_is_ok (entries : list entry) :
  Forall accepted entries -> exists t, aggregate entries = Ok t.
Proof.
  intros H%(aggregate_from_is_ok ∅).
  fold (aggregate entries) in H. destruct (aggregate entries); [by eexists|done].
Qed.

(** When the input loads and the loop body accepts every entry, the run
    returns 0 and writes the output file: the header line, then one row
    for each key of the table, in the order of the sorted keys. *)
Theorem run_succeeds (prog input output : string)
    (load : string -> result document) (data : document) :
  load input = Ok data ->
  Forall accepted (default [] (benchmarks data)) ->
  exists t rows,
    aggregate (default [] (benchmarks data)) = Ok t /\
    main [prog; input; output] load =
      Outcome [] (Some (output, header_line ++ crlf ++ csv_text rows))
              (Ok 0) /\
    length rows = size t /\
    map row_key rows = map Some (sorted_keys t).
Proof.
  intros Hload [t Ht]%accepted_is_ok.
  destruct (emit_ok t) as (rows & Hemit & Hrows).
  exists t, rows. split; [done|]. split; [|split].
  - unfold main. rewrite Hload, Ht, Hemit. by rewrite csv_text_header.
  - rewrite <- sorted_keys_length. symmetry. by eapply Forall2_length.
  - by eapply emit_keys.
Qed.






Lemma step_skipped (summary : table) (e : entry) :
  skipped e -> step summary e = Ok summary.
Proof.
  intros [H|[H|(case & rows & H)]].
  - by apply step_aggregate.
  - by apply step_unnamed.
  - unfold step. destruct (is_aggregate e); [done|].
    destruct (str_truthy _); simpl; [|done]. by rewrite H.
Qed.

Lemma aggregate_from_skipped (summary : table) (entries : list entry) :
  Forall skipped entries -> aggregate_from summary entries = Ok summary.
Proof.
  induction 1 as [|e l He _ IH]; simpl; [done|].
  by rewrite (step_skipped _ _ He).
Qed.

(** When the loop passes over every entry, and so too when the input has
    no entry or no [benchmarks] member at all, the run writes the header
    line alone and returns 0. *)
Theorem skipped_input_gives_header (prog input output : string)
    (load : string -> result document) (data : document) :
  load input = Ok data ->
  Forall skipped (default [] (benchmarks data)) ->
  main [prog; input; output] load =
  Outcome [] (Some (output, header_line ++ crlf)) (Ok 0).
Proof.
  intros Hload Hskip. unfold main, aggregate.
  by rewrite Hload, (aggregate_from_skipped _ _ Hskip).
Qed.

(** An entry without a name, or with an empty one, changes neither the
    table nor the outcome of the run, whatever its other members are. *)
Theorem unnamed_entries_are_skipped
    (l1 l2 : list entry) (e : entry) (argv : list string) :
  name e = None \/ name e = Some "" ->
  aggregate (l1 ++ e :: l2) = aggregate (l1 ++ l2) /\
  main argv (loads (l1 ++ e :: l2)) = main argv (loads (l1 ++ l2)).
Proof.
  intros Hname.
  assert (H : aggregate (l1 ++ e :: l2) = aggregate (l1 ++ l2)).
  { apply aggregate_from_skip. intros s. apply step_unnamed.
    by destruct Hname as [-> | ->]. }
  split; [done|]. by apply main_aggregate.
Qed.

Lemma step_with_defaults (summary : table) (e : entry) :
  step summary (with_defaults e) = step summary e.
Proof. done. Qed.

Lemma aggregate_from_with_defaults (summary : table) (entries : list entry) :
  aggregate_from summary (with_defaults <$> entries) =
  aggregate_from summary entries.
Proof.
  revert summary. induction entries as [|e l IH]; intros summary; [done|].
  rewrite fmap_cons. simpl. rewrite step_with_defaults.
  destruct (step summary e); simpl; [apply IH|done].
Qed.

(** An entry without a time counts as one with the time 0.0, and an entry
    without a unit as one in nanoseconds: filling these in changes neither
    the table nor the outcome of the run. *)
Theorem missing_members_default (entries : list entry) (argv : list string) :
  aggregate (with_defaults <$> entries) = aggregate entries /\
  main argv (loads (with_defaults <$> entries)) = main argv (loads entries).
Proof.
  assert (H : aggregate (with_defaults <$> entries) = aggregate entries)
    by apply aggregate_from_with_defaults.
  split; [done|]. by apply main_aggregate.
Qed.

(** [to_ns] returns for the four units and for no other. *)
Theorem to_ns_supported_units (v : float) (u : string) :
  is_ok (to_ns v u) = true <->
  u = "ns" \/ u = "us" \/ u = "ms" \/ u = "s".
Proof.
  split.
  - intros Hok.
    destruct (decide (u = "ns")); [auto|].
    destruct (decide (u = "us")); [auto|].
    destruct (decide (u = "ms")); [auto|].
    destruct (decide (u = "s")); [auto|].
    by rewrite to_ns_unsupported in Hok.
  - by intros [->|[->|[->| ->]]].
Qed.

(** ** Further properties: the table *)

(** What the loop body does with an entry does not depend on the table:
    it passes over it, or stores what it contributes, or raises. *)
Lemma step_cases (e : entry) :
  (forall s, step s e = Ok s) \/
  (exists k engine ns, contributes e k engine ns) \/
  (exists x, forall s, step s e = Raise x).
Proof.
  unfold step. destruct (is_aggregate e) eqn:Hagg; [by left|].
  destruct (name e) as [n|] eqn:Hn; simpl; [|by left].
  destruct (str_truthy n) eqn:Hne; simpl; [|by left].
  destruct (parse_name n) as [[[case rows] engine]|x] eqn:Hp; simpl;
    [|right; right; by exists x].
  destruct (String.eqb_spec engine "other") as [->|Ho]; [by left|].
  destruct (py_float _) as [v|x] eqn:Hf; simpl; [|right; right; by exists x].
  destruct (to_ns v _) as [ns|x] eqn:Ht; simpl; [|right; right; by exists x].
  right; left. exists (case, rows), engine, ns, v. split; [|done].
  split; [done|]. exists n. repeat split; try done. by intros ->.
Qed.

Lemma set_engine_comm (s : table) k1 g1 v1 k2 g2 v2 :
  (k1, g1) <> (k2, g2) ->
  set_engine (set_engine s k1 g1 v1) k2 g2 v2 =
  set_engine (set_engine s k2 g2 v2) k1 g1 v1.
Proof.
  intros Hne. unfold set_engine.
  destruct (decide (k1 = k2)) as [<-|Hk].
  - rewrite !lookup_insert_eq, !insert_insert_eq. simpl. f_equal.
    apply insert_insert_ne. congruence.
  - rewrite !lookup_insert_ne by done. by apply insert_insert_ne.
Qed.

Lemma distinct_cells_perm (l l' : list entry) :
  l ≡ₚ l' -> distinct_cells l -> distinct_cells l'.
Proof.
  induction 1 as [|x l l' Hperm IH|x y l|l l' l'' _ IH1 _ IH2]; [done| | |auto].
  - inversion 1 as [|? ? Hx Hl]; subst. constructor; [|auto].
    intros e' k g ns ns' Hin. apply Hx. by rewrite Hperm.
  - inversion 1 as [|? ? Hy Hxl]; subst.
    inversion Hxl as [|? ? Hx Hl]; subst.
    constructor; [|constructor; [|done]].
    + intros e' k g ns ns' [->|Hin]%elem_of_cons Hcx; [|by eapply Hx].
      intros Hcy. by eapply (Hy x); [left|..].
    + intros e' k g ns ns' Hin. apply Hy. by right.
Qed.

Lemma aggregate_from_perm (s : table) (l l' : list entry) :
  l ≡ₚ l' -> distinct_cells l -> Forall accepted l ->
  aggregate_from s l = aggregate_from s l'.
Proof.
  intros Hperm. revert s.
  induction Hperm as [|x l l' Hperm IH|x y l|l l' l'' H1 IH1 H2 IH2];
    intros s Hcells Hacc; [done| | |].
  - inversion Hcells; subst. apply Forall_cons in Hacc as [_ Hacc].
    simpl. destruct (step s x) as [s'|]; simpl; [by apply IH|done].
  - inversion Hcells as [|? ? Hy Hxl]; subst.
    apply Forall_cons in Hacc as [Hay [Hax _]%Forall_cons].
    unfold accepted in Hay, Hax. simpl.
    destruct (step_cases y) as [Hsy|[(ky & gy & vy & Hcy)|[e Hry]]];
      [| |by rewrite Hry in Hay].
    { rewrite (Hsy s). simpl.
      destruct (step s x) as [s1|]; simpl; [by rewrite Hsy|done]. }
    rewrite (step_contributes s _ _ _ _ Hcy). simpl.
    destruct (step_cases x) as [Hsx|[(kx & gx & vx & Hcx)|[e Hrx]]];
      [| |by rewrite Hrx in Hax].
    { rewrite !Hsx. simpl. by rewrite (step_contributes s _ _ _ _ Hcy). }
    rewrite !(step_contributes _ _ _ _ _ Hcx). simpl.
    rewrite (step_contributes _ _ _ _ _ Hcy). simpl.
    rewrite set_engine_comm; [done|].
    intros [= -> ->]. by eapply (Hy x); [left|..].
  - rewrite IH1 by done. apply IH2.
    + by eapply distinct_cells_perm.
    + by rewrite <- H1.
Qed.

(** When no two entries contribute to the same key and engine and the
    loop body accepts them all, the order of the entries does not matter:
    the table and the outcome of the run are the same for any order. *)
Theorem entry_order_irrelevant
    (entries entries' : list entry) (argv : list string) :
  entries ≡ₚ entries' ->
  distinct_cells entries ->
  Forall accepted entries ->
  aggregate entries = aggregate entries' /\
  main argv (loads entries) = main argv (loads entries').
Proof.
  intros Hperm Hcells Hacc.
  assert (H : aggregate entries = aggregate entries')
    by by apply aggregate_from_perm.
  split; [done|]. by apply main_aggregate.
Qed.

Lemma aggregate_from_rows_nonempty (summary t : table) (entries : list entry) :
  (forall k row, summary !! k = Some row -> row <> ∅) ->
  aggregate_from summary entries = Ok t ->
  forall k row, t !! k = Some row -> row <> ∅.
Proof.
  revert summary. induction entries as [|e l IH]; intros summary Hne; simpl.
  - by intros [= <-].
  - destruct (step summary e) as [s'|x] eqn:Hstep; simpl; [|done].
    apply IH. intros k row.
    destruct (step_ok _ _ _ Hstep) as [->|(k' & g' & v' & _ & ->)]; [apply Hne|].
    rewrite lookup_set_engine. destruct (decide (k' = k)); [|apply Hne].
    intros [= <-]. apply insert_non_empty.
Qed.

(** Every data row of a run carries a timing: the entropy field or the
    sqlite field holds a float. *)
Theorem every_row_has_a_timing (entries : list entry) (t : table) :
  aggregate entries = Ok t ->
  exists rows,
    emit t = (header :: rows, None) /\
    forall fields, fields ∈ rows ->
      exists case n entropy_ns sqlite_ns ratio v,
        fields = [FStr case; FInt n; entropy_ns; sqlite_ns; ratio] /\
        (entropy_ns = FFloat v \/ sqlite_ns = FFloat v).
Proof.
  intros Ht. destruct (emit_ok t) as (rows & Hemit & Hrows).
  exists rows. split; [done|]. intros fields Hin.
  destruct (proj1 (list_elem_of_lookup _ _) Hin) as [i Hi].
  destruct (Forall2_lookup_r _ _ _ _ _ Hrows Hi)
    as ([case n] & _ & row & ratio & Hrow & -> & _).
  assert (Hne : row <> ∅).
  { eapply (aggregate_from_rows_nonempty ∅); [|exact Ht|exact Hrow].
    intros k r. by rewrite lookup_empty. }
  destruct (map_choose row Hne) as (g & v & Hg).
  assert (Hcell : cell t (case, n) g = Some v).
  { apply cell_is_Some. by exists row. }
  destruct (aggregate_from_cell _ _ _ _ _ _ Ht Hcell) as [Hempty|(e & _ & Hc)].
  { unfold cell in Hempty. by rewrite lookup_empty in Hempty. }
  exists case, n, (row_get row "entropy"), (row_get row "sqlite"), ratio, v.
  split; [done|]. unfold row_get.
  apply contributes_engine in Hc as (? & _ & [[-> _]|[-> _]]);
    rewrite Hg; auto.
Qed.

Lemma append_eq_empty (s t : string) : s ++ t = "" -> s = "" /\ t = "".
Proof. by destruct s. Qed.

Lemma format_repr_nonempty (digits : string) (decpt : Z) :
  format_repr digits decpt <> "".
Proof.
  unfold format_repr.
  destruct (_ || _); [|destruct (_ <=? _)%Z; [|destruct (_ <=? _)%Z]].
  - by intros [_ [=]]%append_eq_empty.
  - done.
  - intros [_ H]%append_eq_empty. by apply append_eq_empty in H as [_ [=]].
  - by intros [_ [=]]%append_eq_empty.
Qed.

Lemma float_repr_nonempty (f : float) : float_repr f <> "".
Proof.
  unfold float_repr. destruct (Prim2SF f) as [[]|[]| |s m e]; try done.
  destruct (shortest_decimal _ _ _ _ _) as [d p].
  intros [_ H]%append_eq_empty. by apply format_repr_nonempty in H.
Qed.

(** A timing field is written empty exactly when the row has no value for
    the engine: a value, be it 0.0, is never written as an empty field. *)
Theorem timing_field_empty (row : gmap string float) (engine : string) :
  csv_field (row_get row engine) = "" <-> row !! engine = None.
Proof.
  unfold row_get. destruct (row !! engine) as [v|]; [|done].
  split; [|done]. unfold csv_field. simpl.
  destruct (needs_quotes _); [done|]. intros H.
  by apply float_repr_nonempty in H.
Qed.

Lemma set_engine_overwrite (s : table) k engine v1 v2 :
  set_engine (set_engine s k engine v1) k engine v2 = set_engine s k engine v2.
Proof.
  unfold set_engine.
  rewrite lookup_insert_eq, insert_insert_eq. simpl.
  by rewrite insert_insert_eq.
Qed.

(** Two tables that agree once a value is stored for [k] and [engine]
    still do after the loop has gone through the same entries. *)
Lemma aggregate_from_overwrite (a b : table) (entries : list entry)
    k engine v :
  set_engine a k engine v = set_engine b k engine v ->
  match aggregate_from a entries, aggregate_from b entries with
  | Ok a', Ok b' => set_engine a' k engine v = set_engine b' k engine v
  | Raise x, Raise y => x = y
  | _, _ => False
  end.
Proof.
  revert a b. induction entries as [|e l IH]; intros a b Hab; simpl; [done|].
  destruct (step_cases e) as [Hs|[(k' & g' & v' & Hc)|[x Hr]]].
  - rewrite !Hs. simpl. by apply IH.
  - rewrite !(step_contributes _ _ _ _ _ Hc). simpl. apply IH.
    destruct (decide ((k', g') = (k, engine))) as [[= -> ->]|Hne].
    + by rewrite !set_engine_overwrite.
    + rewrite !(set_engine_comm _ k' g' v' k engine v) by done.
      by rewrite Hab.
  - by rewrite !Hr.
Qed.

(** Last write wins, in full: an entry whose value is overwritten by a
    later entry for the same key and engine can be left out of the input;
    the table and the outcome of the run stay the same. *)
Theorem overwritten_entry_is_lost
    (l1 l2 l3 : list entry) (e1 e2 : entry) (k : key) (engine : string)
    (v1 v2 : float) (argv : list string) :
  contributes e1 k engine v1 ->
  contributes e2 k engine v2 ->
  aggregate (l1 ++ e1 :: l2 ++ e2 :: l3) = aggregate (l1 ++ l2 ++ e2 :: l3) /\
  main argv (loads (l1 ++ e1 :: l2 ++ e2 :: l3)) =
  main argv (loads (l1 ++ l2 ++ e2 :: l3)).
Proof.
  intros H1 H2.
  assert (H : aggregate (l1 ++ e1 :: l2 ++ e2 :: l3) =
              aggregate (l1 ++ l2 ++ e2 :: l3)).
  { unfold aggregate. rewrite !aggregate_from_app.
    destruct (aggregate_from ∅ l1) as [s|]; simpl; [|done].
    rewrite (step_contributes _ _ _ _ _ H1). simpl.
    rewrite !aggregate_from_app.
    pose proof (aggregate_from_overwrite (set_engine s k engine v1) s l2
                  k engine v2 (set_engine_overwrite _ _ _ _ _)) as Hl2.
    destruct (aggregate_from (set_engine s k engine v1) l2) as [a|x],
      (aggregate_from s l2) as [b|y]; simpl; try done; [|by subst].
    by rewrite !(step_contributes _ _ _ _ _ H2), Hl2. }
  split; [done|]. by apply main_aggregate.
Qed.

(** The engine of a name, in terms of its text before the first slash:
    entropy when Entropy occurs in it, else sqlite when Sqlite occurs in
    it, else other; a name with both tokens is an entropy name. *)
Theorem engine_by_first_token (n case engine : string) (rows : Z) :
  parse_name n = Ok (case, rows, engine) ->
  (engine = "entropy" <->
   exists pre post, (partition "/" n).1.1 = pre ++ "Entropy" ++ post) /\
  (engine = "sqlite" <->
   (exists pre post, (partition "/" n).1.1 = pre ++ "Sqlite" ++ post) /\
   ~ exists pre post, (partition "/" n).1.1 = pre ++ "Entropy" ++ post) /\
  (engine = "other" <->
   ~ (exists pre post, (partition "/" n).1.1 = pre ++ "Entropy" ++ post) /\
   ~ exists pre post, (partition "/" n).1.1 = pre ++ "Sqlite" ++ post).
Proof.
  intros (_ & -> & _)%parse_name_ok.
  rewrite <- !contains_iff.
  destruct (contains "Entropy" _), (contains "Sqlite" _);
    repeat split; try done; try (by intros [? ?]); try (by intros [?|?]).
Qed.

(** ** Further properties: integers and their text *)

Lemma string_of_uint_head (d : Decimal.uint) :
  d <> Decimal.Nil ->
  exists c t, NilEmpty.string_of_uint d = String c t /\ is_digit c = true.
Proof. destruct d; by eauto. Qed.

Ltac scan_digit_step IH :=
  cbn [NilEmpty.string_of_uint scan_digits count_digits
       Pos.of_uint_acc Pos.of_uint];
  match goal with
  | |- context [is_digit ?c] =>
      change (is_digit c) with true; cbv iota;
      let v := eval vm_compute in (digit_value c) in
      change (digit_value c) with v
  end;
  match goal with
  | |- scan_digits _ _ ?a _ = Some (Z.pos ?q, _, _) =>
      match q with
      | Pos.of_uint_acc _ ?p => replace a with (Z.pos p) by lia
      end
  | |- scan_digits _ _ ?a _ = Some (Z.of_N (N.pos ?q), _, _) =>
      match q with
      | Pos.of_uint_acc _ ?p => replace a with (Z.pos p) by lia
      end
  | |- scan_digits _ _ ?a _ = Some (Z.of_N (Pos.of_uint _), _, _) =>
      replace a with 0 by lia
  end;
  rewrite IH by done; do 3 f_equal; lia.

Lemma scan_digits_uint_acc (d : Decimal.uint) prev (acc : positive) digits :
  prev <> "_"%char ->
  scan_digits (NilEmpty.string_of_uint d) prev (Z.pos acc) digits =
  Some (Z.pos (Pos.of_uint_acc d acc),
        (digits + count_digits (NilEmpty.string_of_uint d))%nat, "").
Proof.
  revert prev acc digits.
  induction d as [|d IH|d IH|d IH|d IH|d IH|d IH|d IH|d IH|d IH|d IH];
    intros prev acc digits Hprev; [|scan_digit_step IH..].
  simpl. destruct (Ascii.eqb_spec prev "_"); [done|]. by rewrite Nat.add_0_r.
Qed.

Lemma scan_digits_uint (d : Decimal.uint) prev digits :
  prev <> "_"%char ->
  scan_digits (NilEmpty.string_of_uint d) prev 0 digits =
  Some (Z.of_N (Pos.of_uint d),
        (digits + count_digits (NilEmpty.string_of_uint d))%nat, "").
Proof.
  revert prev digits.
  induction d as [|d IH|d IH|d IH|d IH|d IH|d IH|d IH|d IH|d IH|d IH];
    intros prev digits Hprev;
    [|scan_digit_step IH|scan_digit_step scan_digits_uint_acc..].
  simpl. destruct (Ascii.eqb_spec prev "_"); [done|]. by rewrite Nat.add_0_r.
Qed.

Lemma py_int_uint (sg : string) (d : Decimal.uint) :
  sg = "" \/ sg = "-" ->
  d <> Decimal.Nil ->
  over_digit_limit (count_digits (NilEmpty.string_of_uint d)) = false ->
  py_int (sg ++ NilEmpty.string_of_uint d) =
  Some ((if String.eqb sg "-" then -1 else 1) * Z.of_N (Pos.of_uint d)).
Proof.
  intros Hsg Hd Hlimit.
  destruct (string_of_uint_head d Hd) as (c & t & Hs & Hc).
  assert (Hcount : count_digits (NilEmpty.string_of_uint d) <> 0%nat).
  { rewrite Hs. simpl. rewrite Hc. lia. }
  pose proof (scan_digits_uint d "000"%char 0 ltac:(done)) as Hscan.
  rewrite Hs in Hscan, Hlimit, Hcount |- *.
  rewrite py_int_digits, Hscan by (done || destruct Hsg; auto).
  change (0 + ?n)%nat with n.
  destruct (Nat.eqb_spec (count_digits (String c t)) 0); [done|].
  by rewrite Hlimit.
Qed.

Lemma int_str_cases (z : Z) :
  int_str z =
  match z with
  | 0 => "0"
  | Z.pos p => NilEmpty.string_of_uint (Pos.to_uint p)
  | Z.neg p => "-" ++ NilEmpty.string_of_uint (Pos.to_uint p)
  end.
Proof.
  destruct z as [|p|p]; [done|..]; unfold int_str; simpl;
    pose proof (DecimalPos.Unsigned.to_uint_nonnil p); by destruct (Pos.to_uint p).
Qed.

Lemma partition_app (sep : ascii) (base rest : string) :
  contains (String sep "") base = false ->
  partition sep (base ++ String sep rest) = (base, String sep "", rest).
Proof.
  induction base as [|c base IH]; intros Hbase.
  - simpl. by rewrite Ascii.eqb_refl.
  - rewrite contains_char in Hbase. apply orb_false_iff in Hbase as [Hc Hb].
    change (String c base ++ String sep rest)
      with (String c (base ++ String sep rest)).
    by rewrite partition_cons, Hc, (IH Hb).
Qed.

(** [int] reads the text [str] gives for an integer back as that integer,
    as long as the text stays within the digit limit; so a name made of a
    text without a slash, a slash and the text of an integer parses, with
    that integer as its rows. *)
Theorem rows_text_round_trip (base : string) (z : Z) :
  over_digit_limit (count_digits (int_str z)) = false ->
  contains "/" base = false ->
  py_int (int_str z) = Some z /\
  exists case engine,
    parse_name (base ++ "/" ++ int_str z) = Ok (case, z, engine).
Proof.
  intros Hlimit Hbase.
  assert (Hint : py_int (int_str z) = Some z).
  { rewrite int_str_cases in Hlimit |- *. destruct z as [|p|p]; [done|..].
    - pose proof (py_int_uint "" (Pos.to_uint p) (or_introl eq_refl)
                    (DecimalPos.Unsigned.to_uint_nonnil p) Hlimit) as H.
      change ("" ++ ?s) with s in H.
      by rewrite H, DecimalPos.Unsigned.of_to.
    - pose proof (py_int_uint "-" (Pos.to_uint p) (or_intror eq_refl)
                    (DecimalPos.Unsigned.to_uint_nonnil p) Hlimit) as H.
      by rewrite H, DecimalPos.Unsigned.of_to. }
  split; [done|].
  assert (Hne : str_truthy (int_str z) = true).
  { destruct (int_str z); [|done]. by vm_compute in Hint. }
  unfold parse_name. change ("/" ++ int_str z) with (String "/" (int_str z)).
  rewrite (partition_app "/" base (int_str z) Hbase), Hne, Hint.
  simpl. by eexists _, _.
Qed.

(** ** Further properties: the comparison rows *)

Lemma distinct_cells_cell (summary t : table) (entries : list entry)
    e k engine ns :
  distinct_cells entries -> e ∈ entries -> contributes e k engine ns ->
  aggregate_from summary entries = Ok t ->
  cell t k engine = Some ns.
Proof.
  intros Hcells. revert summary.
  induction Hcells as [|e' l Hhead _ IH]; intros summary Hin Hc; simpl.
  - by apply elem_of_nil in Hin.
  - destruct (step summary e') as [s'|] eqn:Hstep; simpl; [|done].
    intros Hl. apply elem_of_cons in Hin as [<-|Hin]; [|by eapply IH].
    rewrite (step_contributes _ _ _ _ _ Hc) in Hstep. injection Hstep as <-.
    rewrite (aggregate_from_untouched _ _ _ _ _ Hl).
    + rewrite cell_set_engine. by rewrite decide_True.
    + intros e'' ns' Hin'. by eapply Hhead.
Qed.

Lemma csv_text_cons (r : list field) (rows : list (list field)) :
  csv_text (r :: rows) = csv_writerow r ++ csv_text rows.
Proof. unfold csv_text. simpl map. by rewrite concat_cons. Qed.

Lemma csv_text_app (l1 l2 : list (list field)) :
  csv_text (l1 ++ l2) = csv_text l1 ++ csv_text l2.
Proof.
  induction l1 as [|r l1 IH]; [done|].
  rewrite <- app_comm_cons, !csv_text_cons, IH. by rewrite append_assoc.
Qed.

(** An entropy entry and a sqlite entry with the same key make one
    comparison row: when no two entries contribute to the same key and
    engine and the loop body accepts them all, the output file holds,
    after the header, the row with the case, the rows, the two values and
    their quotient, the last field being empty when the sqlite value is
    zero. *)
Theorem paired_entries_share_a_row
    (entries : list entry) (e1 e2 : entry) (k : key) (v1 v2 : float)
    (prog input output : string) :
  distinct_cells entries ->
  Forall accepted entries ->
  e1 ∈ entries -> e2 ∈ entries ->
  contributes e1 k "entropy" v1 ->
  contributes e2 k "sqlite" v2 ->
  let row := [FStr k.1; FInt k.2; FFloat v1; FFloat v2;
              if (v2 =? 0)%float then FStr "" else FFloat (v1 / v2)%float] in
  exists before after,
    main [prog; input; output] (loads entries) =
    Outcome []
      (Some (output,
             header_line ++ crlf ++ before ++ csv_writerow row ++ after))
      (Ok 0).
Proof.
  intros Hcells Hacc Hin1 Hin2 Hc1 Hc2 row.
  destruct (accepted_is_ok _ Hacc) as [t Ht].
  pose proof (distinct_cells_cell _ _ _ _ _ _ _ Hcells Hin1 Hc1 Ht) as Hcell1.
  pose proof (distinct_cells_cell _ _ _ _ _ _ _ Hcells Hin2 Hc2 Ht) as Hcell2.
  apply cell_is_Some in Hcell1 as (r & Hr & Hr1).
  apply cell_is_Some in Hcell2 as (r' & Hr' & Hr2).
  rewrite Hr in Hr'. injection Hr' as <-.
  destruct (emit_ok t) as (rows & Hemit & Hrows).
  assert (Hk : k ∈ sorted_keys t) by (apply elem_of_sorted_keys; eauto).
  apply list_elem_of_lookup in Hk as [i Hi].
  destruct (Forall2_lookup_l _ _ _ _ _ Hrows Hi)
    as (fields & Hfields & r0 & ratio & Hr0 & -> & Hratio).
  rewrite Hr in Hr0. injection Hr0 as <-.
  unfold guarded_ratio in Hratio. unfold row_get in Hfields.
  rewrite Hr1, Hr2 in Hfields, Hratio.
  assert (ratio = if (v2 =? 0)%float then FStr ""
                  else FFloat (v1 / v2)%float) as ->
    by by destruct (v2 =? 0)%float.
  fold row in Hfields.
  assert (Hin : row ∈ rows) by (apply list_elem_of_lookup; eauto).
  apply list_elem_of_split in Hin as (l1 & l2 & ->).
  exists (csv_text l1), (csv_text l2).
  unfold main, loads. simpl. rewrite Ht, Hemit, csv_text_header, csv_text_app.
  by rewrite csv_text_cons.
Qed.

Lemma case_by_first_token_aux (n case engine : string) (rows : Z) :
  parse_name n = Ok (case, rows, engine) ->
  case = (if contains "InsertBatch" (partition "/" n).1.1 then "insert_batch"
          else if contains "PointSelect" (partition "/" n).1.1
               then "point_select"
          else (partition "/" n).1.1).
Proof. by intros (_ & _ & ->)%parse_name_ok. Qed.

(** The case of a name, in terms of its text before the first slash:
    insert_batch when InsertBatch occurs in it, else point_select when
    PointSelect occurs in it, else that text itself; no case holds a
    slash as long as none is given one by these rules. *)
Theorem case_by_first_token (n case engine : string) (rows : Z) :
  parse_name n = Ok (case, rows, engine) ->
  ((exists pre post, (partition "/" n).1.1 = pre ++ "InsertBatch" ++ post) ->
   case = "insert_batch") /\
  (~ (exists pre post, (partition "/" n).1.1 = pre ++ "InsertBatch" ++ post) ->
   (exists pre post, (partition "/" n).1.1 = pre ++ "PointSelect" ++ post) ->
   case = "point_select") /\
  (~ (exists pre post, (partition "/" n).1.1 = pre ++ "InsertBatch" ++ post) ->
   ~ (exists pre post, (partition "/" n).1.1 = pre ++ "PointSelect" ++ post) ->
   case = (partition "/" n).1.1) /\
  contains "/" case = false.
Proof.
  intros ->%case_by_first_token_aux. rewrite <- !contains_iff.
  pose proof (partition_parts n) as (_ & Hbase & _).
  destruct (contains "InsertBatch" _), (contains "PointSelect" _);
    repeat split; try done; intros H1 H2; by destruct H1 || by destruct H2.
Qed.

End Interpreter.

(** ** The claims at concrete inputs *)

(** The text the specification gives for the data row of its example is
    not the text the run writes. *)
Lemma end_to_end_row_text :
  written (main stock_max_str_digits stock_int_error
             ["summarize.py"; "bench.json"; "out.csv"]
             (loads example_entries)) <>
  Some ("out.csv",
        lines_text [header_line; "insert_batch,10,100,50000,0.002"]).
Proof. vm_compute. discriminate. Qed.

Lemma end_to_end_row_written :
  written (main stock_max_str_digits stock_int_error
             ["summarize.py"; "bench.json"; "out.csv"]
             (loads example_entries)) =
  Some ("out.csv",
        lines_text [header_line; "insert_batch,10,100.0,50000.0,0.002"]).
Proof. by vm_compute. Qed.

Lemma unsupported_unit_is_fatal_witness :
  (forall v, to_ns v "weeks" =
             Raise (ValueError "Unsupported time unit: weeks")) /\
  main stock_max_str_digits stock_int_error
    ["summarize.py"; "bench.json"; "out.csv"]
    (loads ([timing "BM_SqliteInsertBatch/10" (NInt 50) "us"]
            ++ timing "BM_EntropyInsertBatch/10" (NInt 1) "weeks"
            :: [timing "BM_EntropyPointSelect/10" (NInt 7) "ns"])) =
  Outcome [] None (Raise (ValueError "Unsupported time unit: weeks")).
Proof.
  apply (unsupported_unit_is_fatal stock_max_str_digits stock_int_error
           "weeks" _ _ _
           (set_engine ∅ ("insert_batch", 10) "sqlite" 50000%float)
           ("insert_batch", 10) "entropy" 1%float).
  - discriminate.
  - discriminate.
  - discriminate.
  - discriminate.
  - vm_compute. reflexivity.
  - split; [reflexivity|]. eexists. repeat split; try reflexivity; discriminate.
  - reflexivity.
Defined.

Lemma last_write_wins_witness :
  exists t,
    aggregate stock_max_str_digits stock_int_error
      ([] ++ timing "BM_EntropyX/5" (NInt 3) "ns"
          :: [timing "BM_SqliteX/5" (NInt 4) "ns"]
          ++ timing "BM_EntropyX/5" (NFloat 2) "us" :: []) = Ok t /\
    cell t ("BM_EntropyX", 5) "entropy" = Some 2000%float /\
    (3%float <> 2000%float ->
     cell t ("BM_EntropyX", 5) "entropy" <> Some 3%float).
Proof.
  apply (last_write_wins stock_max_str_digits stock_int_error).
  - exists 3%float. split; [|reflexivity]. split; [reflexivity|].
    eexists. repeat split; try reflexivity; discriminate.
  - exists 2%float. split; [|reflexivity]. split; [reflexivity|].
    eexists. repeat split; try reflexivity; discriminate.
  - intros e ns Hin. inversion Hin.
  - repeat constructor.
Defined.

Lemma aggregate_entries_are_skipped_witness :
  let mean := Entry (Some (JStr "mean")) (Some (JStr "aggregate"))
                (Some "BM_EntropyInsertBatch/10_mean") (Some (NInt 9))
                (Some "weeks") in
  aggregate stock_max_str_digits stock_int_error
    (example_entries ++ mean :: []) =
  aggregate stock_max_str_digits stock_int_error (example_entries ++ []) /\
  main stock_max_str_digits stock_int_error
    ["summarize.py"; "bench.json"; "out.csv"]
    (loads (example_entries ++ mean :: [])) =
  main stock_max_str_digits stock_int_error
    ["summarize.py"; "bench.json"; "out.csv"]
    (loads (example_entries ++ [])).
Proof.
  intros mean. apply aggregate_entries_are_skipped. reflexivity.
Defined.

Lemma other_entries_are_dropped_witness :
  parse_name stock_max_str_digits stock_int_error "BM_Other/10" =
    Ok ("BM_Other", 10, "other") /\
  aggregate stock_max_str_digits stock_int_error
    ([] ++ timing "BM_Other/10" (NInt 1) "ns" :: example_entries) =
  aggregate stock_max_str_digits stock_int_error ([] ++ example_entries).
Proof.
  destruct (other_entries_are_dropped stock_max_str_digits stock_int_error
              (timing "BM_Other/10" (NInt 1) "ns") "BM_Other/10")
    as (Hother & _ & Hdrop & _).
  - reflexivity.
  - reflexivity.
  - reflexivity.
  - split; [reflexivity|].
    apply (Hdrop eq_refl [] example_entries []).
Defined.



Lemma invalid_rows_abort_witness :
  let bad := timing "BM_EntropyInsertBatch/abc" (NInt 100) "ns" in
  parse_name stock_max_str_digits stock_int_error
    "BM_EntropyInsertBatch/abc" =
    Raise (ValueError (stock_int_error "abc")) /\
  exists x,
    main stock_max_str_digits stock_int_error
      ["summarize.py"; "bench.json"; "out.csv"]
      (loads (example_entries ++ [bad])) =
    Outcome [] None (Raise x).
Proof.
  intros bad.
  destruct (invalid_rows_abort stock_max_str_digits stock_int_error
              "BM_EntropyInsertBatch/abc" bad (example_entries ++ [bad])
              "summarize.py" "bench.json" "out.csv")
    as (Hraise & Hmain & _).
  - discriminate.
  - intros Hlit.
    apply (py_int_complete stock_max_str_digits) in Hlit; [|reflexivity].
    destruct Hlit as [z Hz]. discriminate.
  - vm_compute. do 2 right. left.
  - reflexivity.
  - reflexivity.
  - split; [exact Hraise|exact Hmain].
Defined.

(** ** The further properties at concrete inputs *)

Lemma parse_name_without_rows_witness :
  exists case engine,
    parse_name stock_max_str_digits stock_int_error "BM_EntropyPointSelect" =
    Ok (case, 0, engine).
Proof.
  apply (parse_name_without_rows stock_max_str_digits stock_int_error).
  left. reflexivity.
Defined.

Lemma wrong_argument_count_witness :
  main stock_max_str_digits stock_int_error ["summarize.py"; "bench.json"]
       (loads example_entries) =
  Outcome [usage] None (Ok 1).
Proof.
  apply (wrong_argument_count stock_max_str_digits stock_int_error).
  simpl. lia.
Defined.

Lemma run_succeeds_witness :
  exists t rows,
    aggregate stock_max_str_digits stock_int_error
      (default [] (benchmarks (Document (Some example_entries)))) = Ok t /\
    main stock_max_str_digits stock_int_error
      ["summarize.py"; "bench.json"; "out.csv"] (loads example_entries) =
    Outcome [] (Some ("out.csv", header_line ++ crlf ++ csv_text rows))
            (Ok 0) /\
    length rows = size t /\
    map row_key rows = map Some (sorted_keys t).
Proof.
  apply (run_succeeds stock_max_str_digits stock_int_error
           "summarize.py" "bench.json" "out.csv" (loads example_entries)
           (Document (Some example_entries))).
  - reflexivity.
  - repeat constructor.
Defined.


Lemma skipped_input_gives_header_witness :
  main stock_max_str_digits stock_int_error
    ["summarize.py"; "bench.json"; "out.csv"]
    (loads [Entry (Some (JStr "mean")) None (Some "BM_EntropyInsertBatch/10")
              (Some (NInt 3)) (Some "ns");
            Entry None None None (Some (NInt 3)) (Some "weeks");
            timing "BM_Other/10" (NInt 3) "ns"]) =
  Outcome [] (Some ("out.csv", header_line ++ crlf)) (Ok 0).
Proof.
  eapply (skipped_input_gives_header stock_max_str_digits stock_int_error).
  - reflexivity.
  - constructor; [|constructor; [|constructor; [|constructor]]].
    + left. reflexivity.
    + right. left. reflexivity.
    + right. right. exists "BM_Other", 10. reflexivity.
Defined.

Lemma unnamed_entries_are_skipped_witness :
  let unnamed := Entry None None None (Some (NInt 3)) (Some "weeks") in
  aggregate stock_max_str_digits stock_int_error
    (example_entries ++ unnamed :: []) =
  aggregate stock_max_str_digits stock_int_error (example_entries ++ []) /\
  main stock_max_str_digits stock_int_error
    ["summarize.py"; "bench.json"; "out.csv"]
    (loads (example_entries ++ unnamed :: [])) =
  main stock_max_str_digits stock_int_error
    ["summarize.py"; "bench.json"; "out.csv"]
    (loads (example_entries ++ [])).
Proof.
  intros unnamed. apply unnamed_entries_are_skipped. left. reflexivity.
Defined.

Lemma entry_order_irrelevant_witness :
  let e1 := timing "BM_EntropyInsertBatch/10" (NInt 100) "ns" in
  let e2 := timing "BM_SqliteInsertBatch/10" (NInt 50) "us" in
  aggregate stock_max_str_digits stock_int_error [e1; e2] =
  aggregate stock_max_str_digits stock_int_error [e2; e1] /\
  main stock_max_str_digits stock_int_error
    ["summarize.py"; "bench.json"; "out.csv"] (loads [e1; e2]) =
  main stock_max_str_digits stock_int_error
    ["summarize.py"; "bench.json"; "out.csv"] (loads [e2; e1]).
Proof.
  intros e1 e2. apply entry_order_irrelevant.
  - apply perm_swap.
  - constructor; [|constructor; [|constructor]].
    + intros e' k engine ns ns' Hin Hc1 Hc2.
      inversion Hin as [|? ? ? Hnil]; subst; [|inversion Hnil].
      destruct Hc1 as (x1 & (_ & n1 & Hn1 & _ & Hp1 & _) & _).
      destruct Hc2 as (x2 & (_ & n2 & Hn2 & _ & Hp2 & _) & _).
      injection Hn1 as <-. injection Hn2 as <-.
      vm_compute in Hp1. vm_compute in Hp2. congruence.
    + intros e' k engine ns ns' Hin. inversion Hin.
  - repeat constructor.
Defined.

Lemma every_row_has_a_timing_witness :
  exists rows,
    emit (set_engine ∅ ("insert_batch", -5) "entropy" 100%float) =
    (header :: rows, None) /\
    forall fields, fields ∈ rows ->
      exists case n entropy_ns sqlite_ns ratio v,
        fields = [FStr case; FInt n; entropy_ns; sqlite_ns; ratio] /\
        (entropy_ns = FFloat v \/ sqlite_ns = FFloat v).
Proof.
  apply (every_row_has_a_timing stock_max_str_digits stock_int_error
           [timing "BM_EntropyInsertBatch/-5" (NInt 100) "ns"]).
  vm_compute. reflexivity.
Defined.

Lemma overwritten_entry_is_lost_witness :
  let first := timing "BM_EntropyX/5" (NInt 3) "ns" in
  let between := timing "BM_SqliteX/5" (NInt 4) "ns" in
  let second := timing "BM_EntropyX/5" (NFloat 2) "us" in
  aggregate stock_max_str_digits stock_int_error
    ([] ++ first :: [between] ++ second :: []) =
  aggregate stock_max_str_digits stock_int_error
    ([] ++ [between] ++ second :: []) /\
  main stock_max_str_digits stock_int_error
    ["summarize.py"; "bench.json"; "out.csv"]
    (loads ([] ++ first :: [between] ++ second :: [])) =
  main stock_max_str_digits stock_int_error
    ["summarize.py"; "bench.json"; "out.csv"]
    (loads ([] ++ [between] ++ second :: [])).
Proof.
  intros first between second.
  apply (overwritten_entry_is_lost stock_max_str_digits stock_int_error
           [] [between] [] first second ("BM_EntropyX", 5) "entropy"
           3%float 2000%float).
  - exists 3%float. split; [|reflexivity]. split; [reflexivity|].
    eexists. repeat split; try reflexivity; discriminate.
  - exists 2%float. split; [|reflexivity]. split; [reflexivity|].
    eexists. repeat split; try reflexivity; discriminate.
Defined.

Lemma engine_by_first_token_witness :
  let base := (partition "/" "BM_SqliteVsEntropy/3").1.1 in
  ("entropy" = "entropy" <->
   exists pre post, base = pre ++ "Entropy" ++ post) /\
  ("entropy" = "sqlite" <->
   (exists pre post, base = pre ++ "Sqlite" ++ post) /\
   ~ exists pre post, base = pre ++ "Entropy" ++ post) /\
  ("entropy" = "other" <->
   ~ (exists pre post, base = pre ++ "Entropy" ++ post) /\
   ~ exists pre post, base = pre ++ "Sqlite" ++ post).
Proof.
  apply (engine_by_first_token stock_max_str_digits stock_int_error
           "BM_SqliteVsEntropy/3" "BM_SqliteVsEntropy" "entropy" 3).
  reflexivity.
Defined.

Lemma rows_text_round_trip_witness :
  py_int stock_max_str_digits (int_str (-42)) = Some (-42) /\
  exists case engine,
    parse_name stock_max_str_digits stock_int_error
      ("BM_EntropyInsertBatch" ++ "/" ++ int_str (-42)) =
    Ok (case, -42, engine).
Proof.
  apply (rows_text_round_trip stock_max_str_digits stock_int_error).
  - reflexivity.
  - reflexivity.
Defined.

Lemma paired_entries_share_a_row_witness :
  let row := [FStr "insert_batch"; FInt 10; FFloat 100; FFloat 50000;
              if (50000 =? 0)%float then FStr ""
              else FFloat (100 / 50000)%float] in
  exists before after,
    main stock_max_str_digits stock_int_error
      ["summarize.py"; "bench.json"; "out.csv"] (loads example_entries) =
    Outcome []
      (Some ("out.csv",
             header_line ++ crlf ++ before ++ csv_writerow row ++ after))
      (Ok 0).
Proof.
  apply (paired_entries_share_a_row stock_max_str_digits stock_int_error
           example_entries
           (timing "BM_EntropyInsertBatch/10" (NInt 100) "ns")
           (timing "BM_SqliteInsertBatch/10" (NInt 50) "us")
           ("insert_batch", 10) 100%float 50000%float).
  - constructor; [|constructor; [|constructor]].
    + intros e' k engine ns ns' Hin Hc1 Hc2.
      inversion Hin as [|? ? ? Hnil]; subst; [|inversion Hnil].
      destruct Hc1 as (x1 & (_ & n1 & Hn1 & _ & Hp1 & _) & _).
      destruct Hc2 as (x2 & (_ & n2 & Hn2 & _ & Hp2 & _) & _).
      injection Hn1 as <-. injection Hn2 as <-.
      vm_compute in Hp1. vm_compute in Hp2. congruence.
    + intros e' k engine ns ns' Hin. inversion Hin.
  - repeat constructor.
  - left.
  - right. left.
  - exists 100%float. split; [|reflexivity]. split; [reflexivity|].
    eexists. repeat split; try reflexivity; discriminate.
  - exists 50%float. split; [|reflexivity]. split; [reflexivity|].
    eexists. repeat split; try reflexivity; discriminate.
Defined.

Lemma case_by_first_token_witness :
  let base := (partition "/" "BM_SqlitePointSelectInsertBatch/7").1.1 in
  ((exists pre post, base = pre ++ "InsertBatch" ++ post) ->
   "insert_batch" = "insert_batch") /\
  (~ (exists pre post, base = pre ++ "InsertBatch" ++ post) ->
   (exists pre post, base = pre ++ "PointSelect" ++ post) ->
   "insert_batch" = "point_select") /\
  (~ (exists pre post, base = pre ++ "InsertBatch" ++ post) ->
   ~ (exists pre post, base = pre ++ "PointSelect" ++ post) ->
   "insert_batch" = base) /\
  contains "/" "insert_batch" = false.
Proof.
  apply (case_by_first_token stock_max_str_digits stock_int_error
           "BM_SqlitePointSelectInsertBatch/7" "insert_batch" "sqlite" 7).
  reflexivity.
Defined.
